(** * isobar-ext: the Timeline scheduler

    A shallow embedding of [isobar_ext/timelines/timeline.py].  The Python
    object graph is a record: the attributes of the [Timeline] object, an
    arena of [Track] objects and an arena of output devices, both addressed
    by object identity.  Methods are computations in a state-and-exception
    monad over that record; an exception leaves the state as it was at the
    [raise].

    Times are Python floats in the source.  They are rationals here, so every
    arithmetic statement below is about the exact value the float computation
    approximates. *)

From Stdlib Require Import ZArith QArith Qround Bool List String Lia Lqa.
From stdpp Require Import base option list gmap.
Import ListNotations.

Local Open Scope Z_scope.

(** ** Object identities and plain data *)

Definition TrackId := nat.
Definition DevId := nat.
Definition FunId := nat.

Inductive exn : Type :=
| StopIteration
| ValueError
| TypeError
| KeyError
| ZeroDivisionError
| TrackNotFoundException
| TrackLimitReachedException
| MultipleOutputDevicesException
| IndexError
| OtherException (code : nat).

Inductive result (A : Type) : Type :=
| Ok (a : A)
| Raise (e : exn).
Arguments Ok {A} a.
Arguments Raise {A} e.

Inductive Interpolation : Type :=
| INTERPOLATION_NONE
| INTERPOLATION_MODE (mode : nat).

(** [@dataclass class Action]: a time in beats and a callable. *)
Record Action : Type := mkAction {
  time : Q;
  function : FunId
}.

(** An element of [Timeline.actions] is an [Action] object or, for callers
    that still append the older representation, a dict holding the same two
    values; [tick] converts a dict with [Action( *action.values())]. *)
Inductive ActionEntry : Type :=
| ActionObject (a : Action)
| ActionDict (a : Action).

Definition as_action (x : ActionEntry) : Action :=
  match x with ActionObject a => a | ActionDict a => a end.

(** The attributes of a [Track] the timeline reads, and [state] for whatever
    else the track keeps (its position in the event stream and the like). *)
Record Track : Type := mkTrack {
  name : option string;
  is_finished : bool;
  remove_when_done : bool;
  max_event_count : option Z;
  interpolate : Interpolation;
  output_device : DevId;
  state : nat
}.

(** An output device: its resolution and the number of [tick()] calls it has
    received. *)
Record Device : Type := mkDevice {
  dev_ticks_per_beat : Z;
  dev_ticks : nat
}.

(** A clock multiplier is a generator object.  [cm_serial] is its identity
    (the creation stamp), [cm_output] and [cm_input] the two rates it was made
    with, and [cm_calls] how many times [next] has been taken from it. *)
Record ClockMultiplier : Type := mkClockMultiplier {
  cm_serial : nat;
  cm_output : Z;
  cm_input : Z;
  cm_calls : nat
}.

Inductive LogRecord : Type :=
| DebugRule
| DebugTick (active_tracks pending_actions : nat)
| WarningTrackException (e : exn)
| InfoTrackFinished (total_tracks : nat)
| InfoScheduled (total_tracks : nat).

(** ** The timeline *)

Record Timeline : Type := mkTimeline {
  ticks_per_beat : Z;                          (* clock_source.ticks_per_beat *)
  clock_multipliers : gmap DevId ClockMultiplier;
  output_devices : list DevId;
  current_time : Q;
  max_tracks : Z;
  tracks : list TrackId;
  stop_when_done : bool;
  actions : list ActionEntry;
  running : bool;
  ignore_exceptions : bool;
  heap_tracks : list Track;                    (* Track objects, by identity *)
  heap_devices : list Device;                  (* OutputDevice objects, by identity *)
  serial : nat;                                (* generator objects made so far *)
  log : list LogRecord
}.

#[global] Instance track_inhabited : Inhabited Track :=
  populate (mkTrack None false true None INTERPOLATION_NONE 0%nat 0%nat).
#[global] Instance device_inhabited : Inhabited Device :=
  populate (mkDevice 0 0%nat).

Definition set_clock_multipliers (v : gmap DevId ClockMultiplier) (s : Timeline) : Timeline :=
  mkTimeline (ticks_per_beat s) v (output_devices s) (current_time s) (max_tracks s)
    (tracks s) (stop_when_done s) (actions s) (running s) (ignore_exceptions s)
    (heap_tracks s) (heap_devices s) (serial s) (log s).
Definition set_output_devices (v : list DevId) (s : Timeline) : Timeline :=
  mkTimeline (ticks_per_beat s) (clock_multipliers s) v (current_time s) (max_tracks s)
    (tracks s) (stop_when_done s) (actions s) (running s) (ignore_exceptions s)
    (heap_tracks s) (heap_devices s) (serial s) (log s).
Definition set_current_time (v : Q) (s : Timeline) : Timeline :=
  mkTimeline (ticks_per_beat s) (clock_multipliers s) (output_devices s) v (max_tracks s)
    (tracks s) (stop_when_done s) (actions s) (running s) (ignore_exceptions s)
    (heap_tracks s) (heap_devices s) (serial s) (log s).
Definition set_tracks (v : list TrackId) (s : Timeline) : Timeline :=
  mkTimeline (ticks_per_beat s) (clock_multipliers s) (output_devices s) (current_time s)
    (max_tracks s) v (stop_when_done s) (actions s) (running s) (ignore_exceptions s)
    (heap_tracks s) (heap_devices s) (serial s) (log s).
Definition set_actions (v : list ActionEntry) (s : Timeline) : Timeline :=
  mkTimeline (ticks_per_beat s) (clock_multipliers s) (output_devices s) (current_time s)
    (max_tracks s) (tracks s) (stop_when_done s) v (running s) (ignore_exceptions s)
    (heap_tracks s) (heap_devices s) (serial s) (log s).
Definition set_heap_tracks (v : list Track) (s : Timeline) : Timeline :=
  mkTimeline (ticks_per_beat s) (clock_multipliers s) (output_devices s) (current_time s)
    (max_tracks s) (tracks s) (stop_when_done s) (actions s) (running s) (ignore_exceptions s)
    v (heap_devices s) (serial s) (log s).
Definition set_heap_devices (v : list Device) (s : Timeline) : Timeline :=
  mkTimeline (ticks_per_beat s) (clock_multipliers s) (output_devices s) (current_time s)
    (max_tracks s) (tracks s) (stop_when_done s) (actions s) (running s) (ignore_exceptions s)
    (heap_tracks s) v (serial s) (log s).
Definition set_serial (v : nat) (s : Timeline) : Timeline :=
  mkTimeline (ticks_per_beat s) (clock_multipliers s) (output_devices s) (current_time s)
    (max_tracks s) (tracks s) (stop_when_done s) (actions s) (running s) (ignore_exceptions s)
    (heap_tracks s) (heap_devices s) v (log s).
Definition set_log (v : list LogRecord) (s : Timeline) : Timeline :=
  mkTimeline (ticks_per_beat s) (clock_multipliers s) (output_devices s) (current_time s)
    (max_tracks s) (tracks s) (stop_when_done s) (actions s) (running s) (ignore_exceptions s)
    (heap_tracks s) (heap_devices s) (serial s) v.

(** ** State and exceptions *)

Definition M (A : Type) : Type := Timeline -> result A * Timeline.

Definition ret {A} (a : A) : M A := fun s => (Ok a, s).
Definition raise {A} (e : exn) : M A := fun s => (Raise e, s).
Definition bind {A B} (m : M A) (k : A -> M B) : M B :=
  fun s => match m s with
           | (Ok a, s') => k a s'
           | (Raise e, s') => (Raise e, s')
           end.
Definition gets {A} (f : Timeline -> A) : M A := fun s => (Ok (f s), s).
Definition modify (f : Timeline -> Timeline) : M unit := fun s => (Ok tt, f s).

(** [try: m except Exception as e: h e] *)
Definition try_except {A} (m : M A) (h : exn -> M A) : M A :=
  fun s => match m s with
           | (Ok a, s') => (Ok a, s')
           | (Raise e, s') => h e s'
           end.

Declare Scope timeline_scope.
Delimit Scope timeline_scope with tl.
Notation "x <- m ;; k" := (bind m (fun x => k))
  (at level 100, m at next level, right associativity) : timeline_scope.
Notation "m ;; k" := (bind m (fun _ => k))
  (at level 100, right associativity) : timeline_scope.
Local Open Scope timeline_scope.

(** [for x in l: body x], over a list that was read before the loop. *)
Fixpoint for_each {X} (l : list X) (body : X -> M unit) : M unit :=
  match l with
  | [] => ret tt
  | x :: rest => body x ;; for_each rest body
  end.

(** [for _ in range(n): body] *)
Fixpoint repeat_ (n : nat) (body : M unit) : M unit :=
  match n with
  | O => ret tt
  | S k => body ;; repeat_ k body
  end.

Definition logging (r : LogRecord) : M unit :=
  modify (fun s => set_log (log s ++ [r]) s).

(** ** Python's [round] *)

(** Round to the nearest integer, ties to the even one. *)
Definition round_half_even (x : Q) : Z :=
  let f := Qfloor x in
  match Qcompare (x - inject_Z f) (1 # 2) with
  | Lt => f
  | Gt => f + 1
  | Eq => if Z.even f then f else f + 1
  end.

(** [round(x, 8)], kept as the integer number of 1e-8 steps. *)
Definition round8 (x : Q) : Z := round_half_even (x * inject_Z (10 ^ 8)).

(** [round(x, 8) % 1 == 0] *)
Definition on_beat (x : Q) : bool := (round8 x mod 10 ^ 8 =? 0).

(** ** List operations with Python's behaviour *)

(** [l.remove(x)]: drops the first element equal to [x]; [None] stands for
    the [ValueError] of an absent [x]. *)
Fixpoint list_remove {A} (eqb : A -> A -> bool) (x : A) (l : list A) : option (list A) :=
  match l with
  | [] => None
  | y :: rest =>
      if eqb y x then Some rest
      else match list_remove eqb x rest with
           | Some rest' => Some (y :: rest')
           | None => None
           end
  end.

(** [x in l] *)
Definition list_contains {A} (eqb : A -> A -> bool) (x : A) (l : list A) : bool :=
  existsb (fun y => eqb y x) l.

(** [l.insert(i, x)]: a negative index counts from the end, and an index
    outside the list is clamped to its ends. *)
Definition list_insert_at {A} (i : Z) (x : A) (l : list A) : list A :=
  let n := Z.of_nat (length l) in
  let k := if i <? 0 then Z.max 0 (n + i) else Z.min i n in
  take (Z.to_nat k) l ++ x :: drop (Z.to_nat k) l.

(** The generated [__eq__] of the dataclass compares the two fields; an
    [Action] never equals a dict. *)
Definition action_eqb (a b : Action) : bool :=
  Qeq_bool (time a) (time b) && Nat.eqb (function a) (function b).

Definition entry_eqb (x y : ActionEntry) : bool :=
  match x, y with
  | ActionObject a, ActionObject b => action_eqb a b
  | ActionDict a, ActionDict b => action_eqb a b
  | _, _ => false
  end.

(** ** Event parameters

    [params] is a dict from event keys to values or patterns.  The timeline
    looks at four keys only; everything else travels in [event_other]. *)

(** A callable in an action sequence; [functools.partial] objects get the
    timeline bound as a further leading argument. *)
Inductive Callable : Type :=
| Function (f : FunId)
| Partial (f : FunId) (bound : nat).

(** The value under [EVENT_ACTION]: nothing, one callable, or a pattern
    [PSequence(sequence, repeats)] that has not been iterated yet, given by
    the two arguments of its constructor, which are the attributes that
    [schedule] reads with [vars] and passes on to the patterns it makes. *)
Inductive EventAction : Type :=
| NoAction
| ActionCallable (c : Callable)
| ActionSequence (sequence : list Callable) (repeats : Z).

(** What iterating [PSequence(sequence, repeats)] yields: the sequence,
    [repeats] times over, and nothing for a [repeats] that is not positive.
    [PSequence] is defined outside [timeline.py]. *)
Definition pattern_values (sequence : list Callable) (repeats : Z) : list Callable :=
  concat (replicate (Z.to_nat repeats) sequence).

(** The value under [EVENT_DURATION]: nothing, a number, or an iterable,
    given by the values it yields. *)
Inductive EventDuration : Type :=
| NoDuration
| DurationValue (d : Q)
| DurationSequence (values : list Q).

Record Params : Type := mkParams {
  event_action : EventAction;                (* EVENT_ACTION *)
  event_action_args : list (string * Z);     (* EVENT_ACTION_ARGS, [] when absent *)
  event_duration : EventDuration;            (* EVENT_DURATION *)
  event_delay : option Q;                    (* "delay" *)
  event_other : nat
}.

Definition set_event_action (v : EventAction) (p : Params) : Params :=
  mkParams v (event_action_args p) (event_duration p) (event_delay p) (event_other p).
Definition set_event_action_args (v : list (string * Z)) (p : Params) : Params :=
  mkParams (event_action p) v (event_duration p) (event_delay p) (event_other p).
Definition set_event_duration (v : EventDuration) (p : Params) : Params :=
  mkParams (event_action p) (event_action_args p) v (event_delay p) (event_other p).
Definition set_event_delay (v : option Q) (p : Params) : Params :=
  mkParams (event_action p) (event_action_args p) (event_duration p) v (event_other p).

(** The [params] argument of [schedule]. *)
Inductive ParamsArg : Type :=
| ParamsNone
| ParamsDict (p : Params)
| ParamsList (l : list Params).

(** What [schedule] returns. *)
Inductive Scheduled : Type :=
| ReturnNone
| ReturnTrack (t : TrackId)
| ReturnTracks (l : list TrackId).

(** ** The collaborators

    [Track], the callables held by actions, [make_clock_multiplier] and
    [MidiOutputDevice] are defined outside [timeline.py].  A track method or a
    callable may do anything to the timeline it has a reference to, so each is
    a computation over the whole state.  A clock multiplier is a generator
    without inputs: its [k]-th value depends on the two rates only. *)
Record Collaborators : Type := mkCollaborators {
  track_process_note_offs : TrackId -> M unit;
  track_tick : TrackId -> M unit;
  track_update :
    TrackId -> Params -> option Q -> option Q -> option Interpolation -> M unit;
  call : FunId -> M unit;
  clock_multiplier_yield : Z -> Z -> nat -> result Z;
  midi_ticks_per_beat : Z;
  sequence_truth : list Callable -> Z -> bool      (* bool(pattern) *)
}.

Section Methods.

Variable E : Collaborators.

(** *** Properties *)

(** [tick_duration]: [1.0 / self.ticks_per_beat] *)
Definition tick_duration : M Q :=
  tpb <- gets ticks_per_beat ;;
  if tpb =? 0 then raise ZeroDivisionError
  else ret (1 / inject_Z tpb)%Q.

(** *** Output devices *)

(** [make_clock_multiplier(output_rate, input_rate)]: a new generator,
    nothing of its body has run yet. *)
Definition make_clock_multiplier (output_rate input_rate : Z) : M ClockMultiplier :=
  n <- gets serial ;;
  modify (set_serial (S n)) ;;
  ret (mkClockMultiplier n output_rate input_rate 0).

Definition add_output_device (d : DevId) : M unit :=
  modify (fun s => set_output_devices (output_devices s ++ [d]) s) ;;
  rate <- gets (fun s => dev_ticks_per_beat (heap_devices s !!! d)) ;;
  tpb <- gets ticks_per_beat ;;
  cm <- make_clock_multiplier rate tpb ;;
  modify (fun s => set_clock_multipliers (<[d := cm]> (clock_multipliers s)) s).

Definition set_output_device (d : DevId) : M unit :=
  modify (set_output_devices []) ;;
  add_output_device d.

Definition get_output_device : M DevId :=
  ds <- gets output_devices ;;
  match ds with
  | [d] => ret d
  | _ => raise MultipleOutputDevicesException
  end.

(** [MidiOutputDevice()]: a new device object. *)
Definition MidiOutputDevice : M DevId :=
  ds <- gets heap_devices ;;
  modify (set_heap_devices (ds ++ [mkDevice (midi_ticks_per_beat E) 0])) ;;
  ret (length ds).

(** [device.tick()] *)
Definition device_tick (d : DevId) : M unit :=
  modify (fun s =>
    set_heap_devices
      (alter (fun dev => mkDevice (dev_ticks_per_beat dev) (S (dev_ticks dev))) d
         (heap_devices s)) s).

(** [next(clock_multiplier)] for the multiplier stored under [d]. *)
Definition next_clock_multiplier (d : DevId) : M Z :=
  cms <- gets clock_multipliers ;;
  match cms !! d with
  | None => raise KeyError
  | Some cm =>
      modify (set_clock_multipliers
                (<[d := mkClockMultiplier (cm_serial cm) (cm_output cm) (cm_input cm)
                          (S (cm_calls cm))]> cms)) ;;
      match clock_multiplier_yield E (cm_output cm) (cm_input cm) (cm_calls cm) with
      | Ok n => ret n
      | Raise e => raise e
      end
  end.

(** *** Tracks and actions *)

Definition remove_track (t : TrackId) : M unit :=
  ts <- gets tracks ;;
  match list_remove Nat.eqb t ts with
  | Some ts' => modify (set_tracks ts')
  | None => raise ValueError
  end.

Definition remove_action (a : Action) : M unit :=
  acts <- gets actions ;;
  match list_remove entry_eqb (ActionObject a) acts with
  | Some acts' => modify (set_actions acts')
  | None => raise ValueError
  end.

Definition unschedule (t : TrackId) : M unit :=
  ts <- gets tracks ;;
  if negb (list_contains Nat.eqb t ts) then raise TrackNotFoundException
  else remove_track t.

Definition clear : M unit :=
  ts <- gets tracks ;;
  for_each ts unschedule.

(** [if quantize:] is false for [None] and for zero. *)
Definition truthy (q : option Q) : bool :=
  match q with
  | None => false
  | Some x => negb (Qeq_bool x 0)
  end.

Definition _schedule_action (f : FunId) (quantize : option Q) (delay : Q) : M unit :=
  now <- gets current_time ;;
  let scheduled_time :=
    match quantize with
    | Some q => if truthy quantize then (q * inject_Z (Qceiling (now / q)))%Q else now
    | None => now
    end in
  let scheduled_time := (scheduled_time + delay)%Q in
  modify (fun s => set_actions (actions s ++ [ActionObject (mkAction scheduled_time f)]) s).

(** *** [tick] *)

(** The debug message at the start of a beat. *)
Definition log_beat : M unit :=
  now <- gets current_time ;;
  if on_beat now then
    logging DebugRule ;;
    n <- gets (fun s => length (tracks s)) ;;
    k <- gets (fun s => length (actions s)) ;;
    logging (DebugTick n k)
  else ret tt.

(** [for track in self.tracks[:]: track.process_note_offs()] *)
Definition process_note_offs : M unit :=
  snapshot <- gets tracks ;;
  for_each snapshot (track_process_note_offs E).

(** The body of the loop over [self.actions[:]]; [aligned] is
    [aligned_actions]. *)
Fixpoint flush_loop (snapshot aligned : list ActionEntry) : M (list ActionEntry) :=
  match snapshot with
  | [] => ret aligned
  | x :: rest =>
      let action := as_action x in
      now <- gets current_time ;;
      if round8 (time action) <=? round8 now then
        call E (function action) ;;
        remove_action action ;;
        flush_loop rest aligned
      else
        flush_loop rest (aligned ++ [ActionObject action])
  end.

Definition flush_actions : M unit :=
  snapshot <- gets actions ;;
  aligned <- flush_loop snapshot [] ;;
  modify (set_actions aligned).

(** The body of the loop over [self.tracks[:]]. *)
Definition advance_track (t : TrackId) : M unit :=
  try_except (track_tick E t)
    (fun e =>
       ignore <- gets ignore_exceptions ;;
       if negb ignore then raise e
       else
         logging (WarningTrackException e) ;;
         remove_track t) ;;
  track <- gets (fun s => heap_tracks s !!! t) ;;
  if is_finished track && remove_when_done track then
    remove_track t ;;
    n <- gets (fun s => length (tracks s)) ;;
    logging (InfoTrackFinished n)
  else ret tt.

Definition advance_tracks : M unit :=
  snapshot <- gets tracks ;;
  for_each snapshot advance_track.

Definition check_exhausted : M unit :=
  n <- gets (fun s => length (tracks s)) ;;
  k <- gets (fun s => length (actions s)) ;;
  stop <- gets stop_when_done ;;
  if (n =? 0)%nat && (k =? 0)%nat && stop then raise StopIteration
  else ret tt.

Definition advance_output (d : DevId) : M unit :=
  ticks <- next_clock_multiplier d ;;
  repeat_ (Z.to_nat ticks) (device_tick d).

Definition advance_outputs : M unit :=
  devices <- gets output_devices ;;
  for_each devices advance_output.

(** [self.current_time += self.tick_duration] *)
Definition advance_clock : M unit :=
  now <- gets current_time ;;
  d <- tick_duration ;;
  modify (set_current_time (now + d)%Q).

Definition tick : M unit :=
  log_beat ;;
  process_note_offs ;;
  flush_actions ;;
  advance_tracks ;;
  check_exhausted ;;
  advance_outputs ;;
  advance_clock.

(** [n] calls of [tick], stopping at the first one that raises. *)
Fixpoint ticks (n : nat) : M unit :=
  match n with
  | O => ret tt
  | S k => tick ;; ticks k
  end.

(** *** [schedule] *)

(** [partial(f, self) if isinstance(f, partial) else f] *)
Definition bind_timeline (c : Callable) : Callable :=
  match c with
  | Partial f bound => Partial f (S bound)
  | Function f => Function f
  end.

(** [list(param.pop(EVENT_DURATION, None))]: only an iterable can be listed. *)
Definition duration_list (d : EventDuration) : result (list Q) :=
  match d with
  | DurationSequence values => Ok values
  | NoDuration | DurationValue _ => Raise TypeError
  end.

(** [if action_fun and isinstance(action_fun, Iterable)] *)
Definition is_action_sequence (a : EventAction) : bool :=
  match a with
  | ActionSequence sequence repeats => sequence_truth E sequence repeats
  | _ => false
  end.

(** One round of the first loop of [schedule]: the entries that [param]
    adds to [params_list2].  A parameter set whose action is a sequence is
    split into one for the first callable that the sequence yields and one
    for the others; both new patterns are made with the [repeats] of the
    one given, and so repeat what they were given. *)
Definition split_param (param : Params) : result (list Params) :=
  match event_action param with
  | ActionSequence sequence repeats =>
      if sequence_truth E sequence repeats then
        let bound := map bind_timeline (pattern_values sequence repeats) in
        let params2 := set_event_action (ActionSequence (take 1 bound) repeats) param in
        match duration_list (event_duration params2) with
        | Raise e => Raise e
        | Ok dur2 =>
            let params2 :=
              match dur2 with
              | [] => set_event_duration NoDuration params2
              | _ => set_event_duration (DurationSequence (take 1 dur2)) params2
              end in
            let param := set_event_action (ActionSequence (drop 1 bound) repeats) param in
            match duration_list (event_duration param) with
            | Raise e => Raise e
            | Ok dur =>
                let param :=
                  match dur with
                  | [] => set_event_duration NoDuration param
                  | d0 :: _ =>
                      set_event_duration (DurationSequence (drop 1 dur))
                        (set_event_delay (Some d0) param)
                  end in
                Ok [params2; param]
            end
        end
      else Ok [param]
  | _ => Ok [param]
  end.

(** The first loop: [params_list2], and [event_args] as the last round
    left it. *)
Fixpoint split_params (params_list params_list2 : list Params)
    (event_args : list (string * Z)) : result (list Params * list (string * Z)) :=
  match params_list with
  | [] => Ok (params_list2, event_args)
  | param :: rest =>
      match split_param param with
      | Raise e => Raise e
      | Ok added => split_params rest (params_list2 ++ added) (event_action_args param)
      end
  end.

Definition empty_params : Params := mkParams NoAction [] NoDuration None 0.

Definition params_list_of (params : ParamsArg) : list Params :=
  match params with
  | ParamsNone => [empty_params]
  | ParamsList [] => [empty_params]
  | ParamsList l => l
  | ParamsDict p => [p]
  end.

(** Modelled from the spec: the constructor of [Track] is not part of
    [timeline.py]; a new track is an object of its own, not finished, that
    carries the arguments it was made with. *)
Definition new_track (count : option Z) (interp : Interpolation) (device : DevId)
    (remove : bool) (track_name : option string) : M TrackId :=
  h <- gets heap_tracks ;;
  modify (set_heap_tracks (h ++ [mkTrack track_name false remove count interp device 0])) ;;
  ret (length h).

(** The local function [start_track]. *)
Definition start_track (track_index : option Z) (t : TrackId) : M unit :=
  modify (fun s =>
    match track_index with
    | Some i => set_tracks (list_insert_at i t (tracks s)) s
    | None => set_tracks (tracks s ++ [t]) s
    end) ;;
  n <- gets (fun s => length (tracks s)) ;;
  logging (InfoScheduled n).

(** The loop over [self.tracks] under [if replace:].  Its [return] is in the
    body of the loop, after the [if], so the first round returns. *)
Definition replace_track (track_name : string) (param : Params) (quantize : option Q)
    (delay : Q) (interp : Interpolation) : M (option TrackId) :=
  ts <- gets tracks ;;
  match ts with
  | [] => ret None
  | existing_track :: _ =>
      track <- gets (fun s => heap_tracks s !!! existing_track) ;;
      (if bool_decide (name track = Some track_name)
       then track_update E existing_track param quantize (Some delay) (Some interp)
       else ret tt) ;;
      ret (Some existing_track)
  end.

(** The second loop, over [params_list2]. *)
Fixpoint schedule_loop (quantize : option Q) (delay : Q) (count : option Z)
    (interp : Interpolation) (device : DevId) (remove : bool)
    (track_name : option string) (replace : bool) (track_index sel_track_idx : option Z)
    (params_list2 : list Params) (event_args : list (string * Z))
    (tracks_list : list TrackId) : M Scheduled :=
  match params_list2 with
  | [] =>
      ret (match tracks_list with
           | [] => ReturnNone
           | [t] => ReturnTrack t
           | _ => ReturnTracks tracks_list
           end)
  | param :: rest =>
      let extra_delay := event_delay param in
      let param := set_event_delay None param in
      returned <-
        (if replace then
           match track_name with
           | None => raise ValueError
           | Some n => replace_track n param quantize delay interp
           end
         else ret None) ;;
      match returned with
      | Some existing_track => ret (ReturnTrack existing_track)
      | None =>
          limit <- gets max_tracks ;;
          n <- gets (fun s => length (tracks s)) ;;
          if negb (limit =? 0) && (limit <=? Z.of_nat n) then
            raise TrackLimitReachedException
          else
            let fill := match event_args, sel_track_idx with
                        | [], Some _ => true
                        | _, _ => false
                        end in
            let event_args :=
              match sel_track_idx with
              | Some i => if fill then [("track_idx"%string, i)] else event_args
              | None => event_args
              end in
            let param :=
              match event_action_args param with
              | [] => if fill then set_event_action_args event_args param else param
              | _ => param
              end in
            track <- new_track count interp device remove track_name ;;
            track_update E track param quantize
              (if Qeq_bool delay 0 then extra_delay else Some delay) None ;;
            start_track track_index track ;;
            schedule_loop quantize delay count interp device remove track_name replace
              track_index sel_track_idx rest event_args (tracks_list ++ [track])
      end
  end.

(** The [if output_device is None:] at the start of [schedule]. *)
Definition default_output_device (device : option DevId) : M DevId :=
  match device with
  | Some d => ret d
  | None =>
      n <- gets (fun s => length (output_devices s)) ;;
      (if (n =? 0)%nat then d <- MidiOutputDevice ;; add_output_device d else ret tt) ;;
      ds <- gets output_devices ;;
      match ds with
      | d :: _ => ret d
      | [] => raise IndexError
      end
  end.

Definition schedule (params : ParamsArg) (quantize : option Q) (delay : Q)
    (count : option Z) (interp : Interpolation) (device : option DevId)
    (remove : bool) (track_name : option string) (replace : bool)
    (track_index sel_track_idx : option Z) : M Scheduled :=
  device <- default_output_device device ;;
  match split_params (params_list_of params) [] [] with
  | Raise e => raise e
  | Ok (params_list2, event_args) =>
      schedule_loop quantize delay count interp device remove track_name replace
        track_index sel_track_idx params_list2 event_args []
  end.

End Methods.

(** * More of the timeline *)

Definition set_stop_when_done (v : bool) (s : Timeline) : Timeline :=
  mkTimeline (ticks_per_beat s) (clock_multipliers s) (output_devices s) (current_time s)
    (max_tracks s) (tracks s) v (actions s) (running s) (ignore_exceptions s)
    (heap_tracks s) (heap_devices s) (serial s) (log s).
Definition set_running (v : bool) (s : Timeline) : Timeline :=
  mkTimeline (ticks_per_beat s) (clock_multipliers s) (output_devices s) (current_time s)
    (max_tracks s) (tracks s) (stop_when_done s) (actions s) v (ignore_exceptions s)
    (heap_tracks s) (heap_devices s) (serial s) (log s).

(** [set_ticks_per_beat]: the resolution is the one of the clock source. *)
Definition set_ticks_per_beat (v : Z) (s : Timeline) : Timeline :=
  mkTimeline v (clock_multipliers s) (output_devices s) (current_time s) (max_tracks s)
    (tracks s) (stop_when_done s) (actions s) (running s) (ignore_exceptions s)
    (heap_tracks s) (heap_devices s) (serial s) (log s).

(** ** [__init__]

    [tpb] is the resolution of the clock source, the one given or the
    [Clock] made for the timeline; [devices] are the device objects that
    exist.  The constructor sets the clock source first and registers
    [output_device], when one is given, before it sets the other attributes. *)
Definition Timeline_init (tpb : Z) (devices : list Device) (output_device : option DevId)
    : Timeline :=
  let s := mkTimeline tpb ∅ [] 0 0 [] false [] false false [] devices 0 [] in
  match output_device with
  | Some d => snd (add_output_device d s)
  | None => s
  end.

(** ** Tempo

    The tempo belongs to the clock source; it is [None] for a clock source
    that does not know it. *)

(** [seconds * self.tempo / 60.0] *)
Definition seconds_to_beats (tempo : option Q) (seconds : Q) : result Q :=
  match tempo with
  | Some t => Ok (seconds * t / 60)%Q
  | None => Raise TypeError
  end.

(** [beats * 60.0 / self.tempo] *)
Definition beats_to_seconds (tempo : option Q) (beats : Q) : result Q :=
  match tempo with
  | Some t => if Qeq_bool t 0 then Raise ZeroDivisionError else Ok (beats * 60 / t)%Q
  | None => Raise TypeError
  end.

(** ** [get_track] *)

(** The argument of [get_track]: an [int], a [str], or a value of another
    type. *)
Inductive TrackKey : Type :=
| KeyInt (i : Z)
| KeyStr (n : string)
| KeyOther.

(** [l[i]]: a negative index counts from the end; [None] stands for the
    [IndexError] of an index outside the list. *)
Definition list_index {A} (l : list A) (i : Z) : option A :=
  let n := Z.of_nat (length l) in
  if (0 <=? i) && (i <? n) then l !! Z.to_nat i
  else if (- n <=? i) && (i <? 0) then l !! Z.to_nat (n + i)
  else None.

Definition get_track (track_id : TrackKey) : M (option TrackId) :=
  match track_id with
  | KeyInt i =>
      ts <- gets tracks ;;
      match list_index ts i with
      | Some t => ret (Some t)
      | None => raise IndexError
      end
  | KeyStr n =>
      ts <- gets tracks ;;
      h <- gets heap_tracks ;;
      ret (List.find (fun t => bool_decide (name (h !!! t) = Some n)) ts)
  | KeyOther => raise TypeError
  end.

(** ** [reset], [reset_to_beat] and [run] *)

Section Transport.

(** [Track.reset], [Track.reset_to_beat], [OutputDevice.start] and the
    [run] of the clock source are defined outside [timeline.py].  A device
    has no reference to the timeline. *)
Variable track_reset : TrackId -> M unit.
Variable track_reset_to_beat : TrackId -> M unit.
Variable device_start : DevId -> result unit.
Variable clock_run : M unit.

(** [for track in self.tracks: body(track)], over the list as it is at each
    round: the round [i] takes [self.tracks[i]] and the loop ends when there
    is none.  The result is [false] when [fuel] rounds were not enough. *)
Fixpoint for_tracks (fuel i : nat) (body : TrackId -> M unit) : M bool :=
  match fuel with
  | O => ret false
  | S k =>
      ts <- gets tracks ;;
      match ts !! i with
      | None => ret true
      | Some t => body t ;; for_tracks k (S i) body
      end
  end.

Definition reset_to_beat (fuel : nat) : M bool :=
  modify (fun s => set_current_time (inject_Z (round_half_even (current_time s))) s) ;;
  for_tracks fuel 0 track_reset_to_beat.

Definition reset (fuel : nat) : M bool :=
  modify (set_current_time 0%Q) ;;
  for_tracks fuel 0 track_reset.

(** [run]: the two [except] clauses, [StopIteration] first.  What [print]
    writes is not kept. *)
Definition run (stop : option bool) : M unit :=
  match stop with
  | Some b => modify (set_stop_when_done b)
  | None => ret tt
  end ;;
  try_except
    (devices <- gets output_devices ;;
     for_each devices
       (fun d => match device_start d with
                 | Ok _ => ret tt
                 | Raise e => raise e
                 end) ;;
     modify (set_running true) ;;
     clock_run)
    (fun e =>
       match e with
       | StopIteration => modify (set_running false)
       | _ =>
           ignore <- gets ignore_exceptions ;;
           if negb ignore then raise e else ret tt
       end).

End Transport.

(** * The vocabulary of the statements *)

(** [preserves view m]: whatever [m] does, and whether it returns or raises,
    the part of the state that [view] shows is afterwards what it was. *)
Definition preserves {A X} (view : Timeline -> X) (m : M A) : Prop :=
  forall s r s', m s = (r, s') -> view s' = view s.

(** The collaborators leave [view] alone. *)
Definition collaborators_preserve {X} (view : Timeline -> X) (E : Collaborators) : Prop :=
  (forall t, preserves view (track_process_note_offs E t)) /\
  (forall t, preserves view (track_tick E t)) /\
  (forall t p q d i, preserves view (track_update E t p q d i)) /\
  (forall f, preserves view (call E f)).

(** The timeline's own writes to its tracks, its actions, its track objects
    and the log do not show in [view]. *)
Definition own_writes_hidden {X} (view : Timeline -> X) : Prop :=
  (forall v s, view (set_tracks v s) = view s) /\
  (forall v s, view (set_actions v s) = view s) /\
  (forall v s, view (set_heap_tracks v s) = view s) /\
  (forall v s, view (set_log v s) = view s).

(** The clock, the device objects and the clock multipliers. *)
Definition clock_and_sinks (s : Timeline) : Q * list Device * gmap DevId ClockMultiplier :=
  (current_time s, heap_devices s, clock_multipliers s).

(** The timeline's writes to its devices, its clock multipliers and the
    counter of generator objects do not show in [view]. *)
Definition sink_writes_hidden {X} (view : Timeline -> X) : Prop :=
  (forall v s, view (set_output_devices v s) = view s) /\
  (forall v s, view (set_clock_multipliers v s) = view s) /\
  (forall v s, view (set_heap_devices v s) = view s) /\
  (forall v s, view (set_serial v s) = view s).

(** The clock: the time in beats and the resolution. *)
Definition clock (s : Timeline) : Q * Z := (current_time s, ticks_per_beat s).

(** What makes a clock multiplier the object it is: its creation stamp and
    the rates it was made with.  Taking [next] from it changes none of them. *)
Definition identity_of (cm : ClockMultiplier) : nat * Z * Z :=
  (cm_serial cm, cm_output cm, cm_input cm).

(** The registered devices, the counter of generator objects, and which
    multiplier object is stored under which device. *)
Definition registry (s : Timeline) : list DevId * nat * gmap DevId (nat * Z * Z) :=
  (output_devices s, serial s, identity_of <$> clock_multipliers s).

(** Every registered device has a clock multiplier, and every stored clock
    multiplier was made before now. *)
Definition registry_ok (s : Timeline) : Prop :=
  (forall d, d ∈ output_devices s -> is_Some (clock_multipliers s !! d)) /\
  (forall d cm, clock_multipliers s !! d = Some cm -> (cm_serial cm < serial s)%nat).

(** The calls a user of the timeline can make. *)
Inductive Call : Type :=
| CallTick
| CallSchedule (params : ParamsArg) (quantize : option Q) (delay : Q) (count : option Z)
    (interp : Interpolation) (device : option DevId) (remove : bool)
    (track_name : option string) (replace : bool) (track_index sel_track_idx : option Z)
| CallUnschedule (t : TrackId)
| CallClear
| CallScheduleAction (f : FunId) (quantize : option Q) (delay : Q)
| CallAddOutputDevice (d : DevId)
| CallSetOutputDevice (d : DevId).

Definition perform (E : Collaborators) (c : Call) : M unit :=
  match c with
  | CallTick => tick E
  | CallSchedule params quantize delay count interp device remove track_name replace
      track_index sel_track_idx =>
      schedule E params quantize delay count interp device remove track_name replace
        track_index sel_track_idx ;;
      ret tt
  | CallUnschedule t => unschedule t
  | CallClear => clear
  | CallScheduleAction f quantize delay => _schedule_action f quantize delay
  | CallAddOutputDevice d => add_output_device d
  | CallSetOutputDevice d => set_output_device d
  end.

(** The calls that register [d]. *)
Definition registers (c : Call) (d : DevId) : Prop :=
  c = CallAddOutputDevice d \/ c = CallSetOutputDevice d.

(** An action is due at [now]. *)
Definition due (now : Q) (x : ActionEntry) : bool :=
  round8 (time (as_action x)) <=? round8 now.

(** [steps R m]: whatever [m] does, and whether it returns or raises, the
    state it starts in and the state it leaves are related by [R]. *)
Definition steps {A} (R : Timeline -> Timeline -> Prop) (m : M A) : Prop :=
  forall s r s', m s = (r, s') -> R s s'.

(** The tracks, and how many track objects there are. *)
Definition track_list (s : Timeline) : list TrackId * nat :=
  (tracks s, length (heap_tracks s)).

(** From [s] to [s'] tracks have only been taken out of [tracks]: what is
    left is in the order it was in, and no track object has come or gone. *)
Definition tracks_shrink (s s' : Timeline) : Prop :=
  sublist (tracks s') (tracks s) /\ length (heap_tracks s') = length (heap_tracks s).



(** The tracks, and the names of the track objects. *)
Definition track_names (s : Timeline) : list TrackId * list (option string) :=
  (tracks s, name <$> heap_tracks s).

(** The tracks and the limit on their number. *)
Definition track_limit (s : Timeline) : list TrackId * Z := (tracks s, max_tracks s).

(** The tracks and the time. *)
Definition beat (s : Timeline) : list TrackId * Q := (tracks s, current_time s).

(** * Collaborators and states to evaluate the methods on *)

(** The track [t] takes one step: [state] counts them. *)
Definition step_track (t : TrackId) : M unit :=
  modify (fun s =>
    set_heap_tracks
      (alter (fun tr => mkTrack (name tr) (is_finished tr) (remove_when_done tr)
                          (max_event_count tr) (interpolate tr) (output_device tr)
                          (S (state tr))) t (heap_tracks s)) s).

(** The track [t] notes that its events are used up. *)
Definition finish_track (t : TrackId) : M unit :=
  modify (fun s =>
    set_heap_tracks
      (alter (fun tr => mkTrack (name tr) true (remove_when_done tr)
                          (max_event_count tr) (interpolate tr) (output_device tr)
                          (state tr)) t (heap_tracks s)) s).

(** Collaborators that do nothing: every track method and every callable
    returns at once, and a clock multiplier yields one tick per call. *)
Definition idle : Collaborators :=
  mkCollaborators (fun _ => ret tt) (fun _ => ret tt) (fun _ _ _ _ _ => ret tt)
    (fun _ => ret tt) (fun _ _ _ => Ok 1) 24 (fun l _ => negb (length l =? 0)%nat).

(** Two tracks, no action, [stop_when_done] set. *)
Definition two_tracks_stopping : Timeline :=
  mkTimeline 480 ∅ [] (3 # 2) 0 [0; 1]%nat true [] false false
    [mkTrack None false true None INTERPOLATION_NONE 0%nat 0%nat;
     mkTrack None false true None INTERPOLATION_NONE 0%nat 0%nat] [] 0 [].

(** One track, one action for beat 4, [stop_when_done] set. *)
Definition one_pending_action : Timeline :=
  mkTimeline 480 ∅ [] 0 0 [0%nat] true [ActionObject (mkAction 4 0%nat)] false false
    [mkTrack None false true None INTERPOLATION_NONE 0%nat 0%nat] [] 0 [].

(** An empty timeline, half a beat in. *)
Definition half_past : Timeline :=
  mkTimeline 480 ∅ [] (1 # 2) 0 [] false [] false false [] [] 0 [].

(** An action sequence without a duration. *)
Definition two_callables : Params :=
  mkParams (ActionSequence [Function 0%nat; Function 1%nat] 1) [] NoDuration None 0.

(** Collaborators whose tracks count the calls of [update] in [state]. *)
Definition counting_updates : Collaborators :=
  mkCollaborators (fun _ => ret tt) (fun _ => ret tt) (fun t _ _ _ _ => step_track t)
    (fun _ => ret tt) (fun _ _ _ => Ok 1) 24 (fun l _ => negb (length l =? 0)%nat).

(** Two running tracks, "bass" first and "lead" second, on one device. *)
Definition bass_and_lead : Timeline :=
  mkTimeline 480 {[ 0%nat := mkClockMultiplier 0 24 480 0 ]} [0%nat] 0 0 [0; 1]%nat
    false [] true false
    [mkTrack (Some "bass"%string) false true None INTERPOLATION_NONE 0%nat 0%nat;
     mkTrack (Some "lead"%string) false true None INTERPOLATION_NONE 0%nat 0%nat]
    [mkDevice 24 0] 1 [].

(** Parameters without an action. *)
Definition louder : Params := mkParams NoAction [] NoDuration None 7.

(** Track 0 raises in [tick()]; every other track takes a step. *)
Definition track0_raises : Collaborators :=
  mkCollaborators (fun _ => ret tt)
    (fun t => if (t =? 0)%nat then raise (OtherException 1) else step_track t)
    (fun _ _ _ _ _ => ret tt) (fun _ => ret tt) (fun _ _ _ => Ok 1) 24
    (fun l _ => negb (length l =? 0)%nat).

(** Track 0 comes to the end of its events and raises in the same [tick()];
    every other track takes a step. *)
Definition track0_finishes_and_raises : Collaborators :=
  mkCollaborators (fun _ => ret tt)
    (fun t => if (t =? 0)%nat then finish_track 0%nat ;; raise (OtherException 1)
              else step_track t)
    (fun _ _ _ _ _ => ret tt) (fun _ => ret tt) (fun _ _ _ => Ok 1) 24
    (fun l _ => negb (length l =? 0)%nat).

(** The callable 0 schedules the callable 1 for one beat later; every other
    callable returns at once. *)
Definition callable0_schedules : Collaborators :=
  mkCollaborators (fun _ => ret tt) (fun _ => ret tt) (fun _ _ _ _ _ => ret tt)
    (fun f => if (f =? 0)%nat then _schedule_action 1%nat None 1 else ret tt)
    (fun _ _ _ => Ok 1) 24 (fun l _ => negb (length l =? 0)%nat).

(** Two tracks on one device, half a beat in. *)
Definition two_tracks (ignore : bool) : Timeline :=
  mkTimeline 480 {[ 0%nat := mkClockMultiplier 0 24 480 0 ]} [0%nat] (1 # 2) 0 [0; 1]%nat
    false [] true ignore
    [mkTrack None false true None INTERPOLATION_NONE 0%nat 0%nat;
     mkTrack None false true None INTERPOLATION_NONE 0%nat 0%nat]
    [mkDevice 24 0] 1 [].

(** One action, due now, whose callable is the callable 0. *)
Definition one_due_action : Timeline :=
  mkTimeline 480 ∅ [] 0 0 [] false [ActionObject (mkAction 0 0%nat)] true false
    [] [] 0 [].

(** At rest, four ticks to the beat, one track that never ends. *)
Definition at_rest : Timeline :=
  mkTimeline 4 {[ 0%nat := mkClockMultiplier 0 24 4 0 ]} [0%nat] 0 0 [0%nat]
    false [] true false
    [mkTrack None false true None INTERPOLATION_NONE 0%nat 0%nat]
    [mkDevice 24 0] 1 [].

(** Two device objects, the first of them registered. *)
Definition studio : Timeline :=
  mkTimeline 480 {[ 0%nat := mkClockMultiplier 0 24 480 0 ]} [0%nat] 0 0 []
    false [] false false [] [mkDevice 24 0; mkDevice 96 0] 1 [].

(** Collaborators that do nothing, with clock multipliers that yield one
    tick per call, but raise for a device of 96 ticks per beat. *)
Definition uneven_rates : Collaborators :=
  mkCollaborators (fun _ => ret tt) (fun _ => ret tt) (fun _ _ _ _ _ => ret tt)
    (fun _ => ret tt)
    (fun output_rate _ _ => if output_rate =? 96 then Raise (OtherException 2) else Ok 1)
    24 (fun l _ => negb (length l =? 0)%nat).

(** A decidable closed proposition, settled by evaluating its decision. *)
Ltac by_decide := apply (bool_decide_unpack _); vm_compute; exact I.

(** * Properties *)

(** ** The monad *)

Lemma bind_ok {A B} (m : M A) (k : A -> M B) s a s' :
  m s = (Ok a, s') -> bind m k s = k a s'.
Proof. intros H. unfold bind. now rewrite H. Qed.

Lemma bind_raise {A B} (m : M A) (k : A -> M B) s e s' :
  m s = (Raise e, s') -> bind m k s = (Raise e, s').
Proof. intros H. unfold bind. now rewrite H. Qed.

Lemma bind_inv_ok {A B} (m : M A) (k : A -> M B) s b s2 :
  bind m k s = (Ok b, s2) ->
  exists a s1, m s = (Ok a, s1) /\ k a s1 = (Ok b, s2).
Proof.
  unfold bind. destruct (m s) as [[a|e] s1]; intros H.
  - exists a, s1. split; [reflexivity | exact H].
  - discriminate H.
Qed.

Lemma bind_inv_raise {A B} (m : M A) (k : A -> M B) s e s2 :
  bind m k s = (Raise e, s2) ->
  m s = (Raise e, s2) \/ exists a s1, m s = (Ok a, s1) /\ k a s1 = (Raise e, s2).
Proof.
  unfold bind. destruct (m s) as [[a|e'] s1]; intros H.
  - right. exists a, s1. split; [reflexivity | exact H].
  - left. injection H as -> ->. reflexivity.
Qed.

(** ** [list.remove] and [in] *)

Lemma list_contains_elem (t : nat) (l : list nat) :
  list_contains Nat.eqb t l = true <-> t ∈ l.
Proof.
  unfold list_contains. induction l as [|y l IH]; simpl.
  - split; [discriminate | intros H; inversion H].
  - rewrite orb_true_iff, IH, Nat.eqb_eq, elem_of_cons.
    split; intros [H|H]; auto.
Qed.

Lemma list_remove_absent (t : nat) (l : list nat) :
  t ∉ l -> list_remove Nat.eqb t l = None.
Proof.
  induction l as [|y l IH]; simpl; intros H; [reflexivity|].
  apply not_elem_of_cons in H as [Hne Hl].
  destruct (Nat.eqb_spec y t) as [->|_]; [contradiction|].
  now rewrite (IH Hl).
Qed.

Lemma list_remove_present (t : nat) (l : list nat) :
  t ∈ l ->
  exists l1 l2, l = l1 ++ t :: l2 /\ (t ∉ l1) /\
                list_remove Nat.eqb t l = Some (l1 ++ l2).
Proof.
  induction l as [|y l IH]; simpl; intros H; [inversion H|].
  destruct (Nat.eqb_spec y t) as [->|Hne].
  - exists [], l. repeat split. apply not_elem_of_nil.
  - apply elem_of_cons in H as [H|H]; [congruence|].
    destruct (IH H) as (l1 & l2 & -> & Hl1 & ->).
    exists (y :: l1), l2. repeat split.
    apply not_elem_of_cons. split; [congruence | exact Hl1].
Qed.

Lemma list_remove_first (t : nat) (l1 l2 : list nat) :
  t ∉ l1 -> list_remove Nat.eqb t (l1 ++ t :: l2) = Some (l1 ++ l2).
Proof.
  induction l1 as [|y l1 IH]; simpl; intros H.
  - now rewrite Nat.eqb_refl.
  - apply not_elem_of_cons in H as [Hne Hl1].
    destruct (Nat.eqb_spec y t) as [->|_]; [contradiction|].
    now rewrite (IH Hl1).
Qed.

Lemma list_remove_head (t : nat) (l : list nat) :
  list_remove Nat.eqb t (t :: l) = Some l.
Proof. simpl. now rewrite Nat.eqb_refl. Qed.

(** ** [unschedule] and [clear] *)

Lemma unschedule_absent t s :
  t ∉ tracks s -> unschedule t s = (Raise TrackNotFoundException, s).
Proof.
  intros H. unfold unschedule, bind, gets.
  destruct (list_contains Nat.eqb t (tracks s)) eqn:Hc; [|reflexivity].
  apply list_contains_elem in Hc. contradiction.
Qed.

Lemma unschedule_present t s :
  t ∈ tracks s ->
  exists l1 l2, tracks s = l1 ++ t :: l2 /\ (t ∉ l1) /\
                unschedule t s = (Ok tt, set_tracks (l1 ++ l2) s).
Proof.
  intros H. destruct (list_remove_present t (tracks s) H) as (l1 & l2 & Hl & Hl1 & Hr).
  exists l1, l2. repeat split; [exact Hl | exact Hl1 |].
  apply list_contains_elem in H.
  unfold unschedule, bind, gets. rewrite H. simpl.
  unfold remove_track, bind, gets, modify. now rewrite Hr.
Qed.

(** C8: [unschedule] of a track that is not in [tracks] raises
    [TrackNotFoundException] and changes nothing; [unschedule] of a track that
    is in [tracks] returns and takes its first occurrence out of the list, so
    the list is one shorter, and the track is gone from it when it was there
    once. *)
Theorem unschedule_not_found_or_removed (t : TrackId) (s : Timeline) :
  (t ∉ tracks s -> unschedule t s = (Raise TrackNotFoundException, s)) /\
  (t ∈ tracks s ->
   exists l1 l2,
     tracks s = l1 ++ t :: l2 /\ (t ∉ l1) /\
     unschedule t s = (Ok tt, set_tracks (l1 ++ l2) s) /\
     S (length (l1 ++ l2)) = length (tracks s) /\
     (NoDup (tracks s) -> t ∉ l1 ++ l2)).
Proof.
  split; [apply unschedule_absent|].
  intros H. destruct (unschedule_present t s H) as (l1 & l2 & Hl & Hl1 & Hu).
  exists l1, l2. repeat split; try assumption.
  - rewrite Hl, !length_app. simpl. lia.
  - rewrite Hl. intros Hnd Hin.
    apply NoDup_app in Hnd as (_ & Hdisj & Hnd2).
    apply NoDup_cons in Hnd2 as [Hn2 _].
    apply elem_of_app in Hin as [Hin|Hin]; [contradiction | contradiction].
Qed.

(** A track in the list, once: after [unschedule] it is not there. *)
Lemma unschedule_not_found_or_removed_witness :
  let s := mkTimeline 480 ∅ [] 0 0 [4; 7; 9]%nat false [] false false [] [] 0 [] in
  unschedule 7%nat s = (Ok tt, set_tracks [4; 9]%nat s) /\ 7%nat ∉ [4; 9]%nat.
Proof.
  intros s.
  destruct (proj2 (unschedule_not_found_or_removed 7%nat s))
    as (l1 & l2 & Hl & Hl1 & Hu & _ & Hnd).
  - simpl. by_decide.
  - assert (Hr : unschedule 7%nat s = (Ok tt, set_tracks [4; 9]%nat s)) by reflexivity.
    split; [exact Hr|].
    rewrite Hr in Hu. injection Hu as Hu.
    rewrite Hu. apply Hnd. simpl. by_decide.
Defined.

Lemma for_each_unschedule (l : list TrackId) (s : Timeline) :
  tracks s = l -> for_each l unschedule s = (Ok tt, set_tracks [] s).
Proof.
  revert s. induction l as [|t l IH]; intros s Hs; simpl.
  - unfold ret. destruct s; simpl in *. now subst.
  - assert (Hu : unschedule t s = (Ok tt, set_tracks l s)).
    { unfold unschedule, bind, gets. rewrite Hs. unfold list_contains. simpl.
      rewrite Nat.eqb_refl. simpl.
      unfold remove_track, bind, gets, modify. rewrite Hs.
      now rewrite list_remove_head. }
    rewrite (bind_ok _ _ _ _ _ Hu). now rewrite (IH (set_tracks l s)).
Qed.

Lemma clear_empties (s : Timeline) : clear s = (Ok tt, set_tracks [] s).
Proof. unfold clear, bind, gets. now apply for_each_unschedule. Qed.

(** With no track and no action left, a [tick] under [stop_when_done]
    raises [StopIteration], and its state is the one it started in but for
    the log. *)
Lemma tick_exhausted E (s : Timeline) :
  tracks s = [] -> actions s = [] -> stop_when_done s = true ->
  exists records, tick E s = (Raise StopIteration, set_log (log s ++ records) s).
Proof.
  intros Ht Ha Hs.
  exists (if on_beat (current_time s)
          then [DebugRule; DebugTick 0 0] else []).
  destruct s as [tpb cms ods now mt ts stop acts run ign ht hd ser lg].
  simpl in *. subst.
  cbv [tick log_beat process_note_offs flush_actions advance_tracks check_exhausted
       bind gets logging modify ret raise for_each flush_loop
       current_time tracks actions stop_when_done log set_log set_actions].
  destruct (on_beat now); simpl; rewrite ?app_nil_r, <- ?app_assoc; reflexivity.
Qed.

(** C5, as amended: after [clear()] the list of tracks is empty; and when
    [stop_when_done] is set and no action is pending, a [tick()] right after
    [clear()] raises [StopIteration]. *)
Theorem clear_then_tick_exhausted E (s : Timeline) :
  exists s1,
    clear s = (Ok tt, s1) /\ tracks s1 = [] /\
    (stop_when_done s = true -> actions s = [] ->
     exists s2, tick E s1 = (Raise StopIteration, s2) /\
                (clear ;; tick E) s = (Raise StopIteration, s2)).
Proof.
  exists (set_tracks [] s). split; [apply clear_empties|]. split; [reflexivity|].
  intros Hs Ha.
  destruct (tick_exhausted E (set_tracks [] s)) as [records Hr]; try assumption.
  { reflexivity. }
  eexists. split; [exact Hr|].
  rewrite (bind_ok _ _ _ _ _ (clear_empties s)). exact Hr.
Qed.

Lemma clear_then_tick_exhausted_witness :
  exists s2, (clear ;; tick idle) two_tracks_stopping = (Raise StopIteration, s2).
Proof.
  destruct (clear_then_tick_exhausted idle two_tracks_stopping)
    as (s1 & _ & _ & H).
  destruct (H eq_refl eq_refl) as (s2 & _ & H2).
  exists s2. exact H2.
Defined.

(** C5 as stated fails: [stop_when_done] is set, yet the [tick()] after
    [clear()] returns, because an action is still pending. *)
Lemma clear_then_tick_pending_action :
  stop_when_done one_pending_action = true /\
  (exists s2, (clear ;; tick idle) one_pending_action = (Ok tt, s2) /\
              tracks s2 = [] /\ actions s2 = [ActionObject (mkAction 4 0%nat)]) /\
  ~ (forall E s, stop_when_done s = true ->
       exists s2, (clear ;; tick E) s = (Raise StopIteration, s2)).
Proof.
  split; [reflexivity|]. split.
  - eexists. split; [vm_compute; reflexivity|]. split; reflexivity.
  - intros H. destruct (H idle one_pending_action eq_refl) as [s2 H2].
    vm_compute in H2. discriminate H2.
Qed.

(** ** [_schedule_action] *)

Lemma Qceiling_unit_interval (x : Q) : (0 < x)%Q -> (x <= 1)%Q -> Qceiling x = 1.
Proof.
  intros Hpos Hle.
  pose proof (Qle_ceiling x) as Hup.
  pose proof (Qceiling_lt x) as Hlow.
  assert (H0 : (inject_Z 0 < inject_Z (Qceiling x))%Q).
  { eapply Qlt_le_trans; [exact Hpos | exact Hup]. }
  assert (H2 : (inject_Z (Qceiling x - 1) < inject_Z 1)%Q).
  { eapply Qlt_le_trans; [exact Hlow | exact Hle]. }
  rewrite <- Zlt_Qlt in H0, H2. lia.
Qed.

Lemma Qdiv_one (x : Q) : (x / 1 == x)%Q.
Proof. unfold Qdiv. change (/ 1)%Q with 1%Q. apply Qmult_1_r. Qed.

(** C3: [_schedule_action] appends one action.  With a quantization [q] that
    is not zero its time is [ceil(current_time / q) * q + delay]; with none,
    or with zero, it is [current_time + delay].  For [q = 1] and a current
    time strictly between 0 and 1 that is [1 + delay], and for a current time
    of exactly 1 it is [1 + delay] as well, not [2 + delay]. *)
Theorem schedule_action_start_time (f : FunId) (quantize : option Q) (delay : Q)
    (s : Timeline) :
  exists t : Q,
    _schedule_action f quantize delay s
    = (Ok tt, set_actions (actions s ++ [ActionObject (mkAction t f)]) s) /\
    (forall q, quantize = Some q -> ~ (q == 0)%Q ->
       (t == inject_Z (Qceiling (current_time s / q)) * q + delay)%Q) /\
    (quantize = None -> (t == current_time s + delay)%Q) /\
    (forall q, quantize = Some q -> (q == 0)%Q -> (t == current_time s + delay)%Q) /\
    (quantize = Some 1%Q -> (0 < current_time s)%Q -> (current_time s < 1)%Q ->
       (t == 1 + delay)%Q) /\
    (quantize = Some 1%Q -> (current_time s == 1)%Q -> (t == 1 + delay)%Q).
Proof.
  destruct quantize as [q|].
  - destruct (Qeq_bool q 0) eqn:Hq.
    + exists (current_time s + delay)%Q.
      refine (conj _ (conj _ (conj _ (conj _ (conj _ _))))).
      * unfold _schedule_action, bind, gets, modify, truthy. now rewrite Hq.
      * intros q' [= <-] Hne. apply Qeq_bool_iff in Hq. contradiction.
      * discriminate.
      * reflexivity.
      * intros [= ->]. discriminate Hq.
      * intros [= ->]. discriminate Hq.
    + exists (q * inject_Z (Qceiling (current_time s / q)) + delay)%Q.
      refine (conj _ (conj _ (conj _ (conj _ (conj _ _))))).
      * unfold _schedule_action, bind, gets, modify, truthy. now rewrite Hq.
      * intros q' [= <-] _. now rewrite (Qmult_comm q).
      * discriminate.
      * intros q' [= <-] H0. apply Qeq_bool_iff in H0. congruence.
      * intros [= ->] Hpos Hlt.
        assert (Hc : Qceiling (current_time s / 1) = 1).
        { apply Qceiling_unit_interval; rewrite Qdiv_one;
            [exact Hpos | now apply Qlt_le_weak]. }
        rewrite Hc. reflexivity.
      * intros [= ->] H1.
        assert (Hc : Qceiling (current_time s / 1) = 1).
        { apply Qceiling_unit_interval; rewrite Qdiv_one, H1; [reflexivity | apply Qle_refl]. }
        rewrite Hc. reflexivity.
  - exists (current_time s + delay)%Q.
    refine (conj _ (conj _ (conj _ (conj _ (conj _ _)))));
      try discriminate; reflexivity.
Qed.

Lemma schedule_action_start_time_witness :
  exists t : Q,
    _schedule_action 0%nat (Some 1%Q) 0 half_past
    = (Ok tt, set_actions [ActionObject (mkAction t 0%nat)] half_past) /\
    (t == 1)%Q.
Proof.
  destruct (schedule_action_start_time 0%nat (Some 1%Q) 0 half_past)
    as (t & Hrun & _ & _ & _ & Hin & _).
  exists t. split; [exact Hrun|].
  rewrite (Hin eq_refl); [reflexivity | reflexivity | reflexivity].
Defined.

(** ** [schedule] *)

Lemma split_param_nonempty E (param : Params) (added : list Params) :
  split_param E param = Ok added -> added <> [].
Proof.
  unfold split_param.
  destruct (event_action param) as [|c|sequence repeats]; try (intros [= <-]; discriminate).
  destruct (sequence_truth E sequence repeats); [|intros [= <-]; discriminate].
  simpl. destruct (event_duration param); simpl; try discriminate.
  intros [= <-]. discriminate.
Qed.

Lemma split_params_nonempty E (params_list acc : list Params) args out args' :
  split_params E params_list acc args = Ok (out, args') ->
  params_list <> [] \/ acc <> [] -> out <> [].
Proof.
  revert acc args. induction params_list as [|param rest IH]; intros acc args; simpl.
  - intros [= <- <-] [H|H]; [congruence | exact H].
  - destruct (split_param E param) as [added|e] eqn:Hs; [|discriminate].
    intros H _. apply (IH _ _ H). right.
    apply split_param_nonempty in Hs.
    destruct acc; [exact Hs | discriminate].
Qed.

Lemma params_list_of_nonempty (params : ParamsArg) : params_list_of params <> [].
Proof. destruct params as [|p|[|p l]]; discriminate. Qed.

(** The choice of the output device at the start of [schedule] always
    returns, and leaves the tracks alone. *)
Lemma default_device_tracks E (device : option DevId) (s : Timeline) :
  exists d s1,
    default_output_device E device s = (Ok d, s1) /\
    tracks s1 = tracks s /\ heap_tracks s1 = heap_tracks s /\ actions s1 = actions s.
Proof.
  destruct device as [d|].
  - exists d, s. repeat split.
  - destruct (output_devices s) as [|d ds] eqn:Hd.
    + destruct s as [tpb cms ods now mt ts stop acts run ign ht hd ser lg].
      simpl in Hd. subst ods.
      eexists _, _. split.
      * cbv [default_output_device bind gets modify ret MidiOutputDevice
             add_output_device make_clock_multiplier]. simpl. reflexivity.
      * repeat split.
    + exists d, s. split; [|repeat split].
      cbv [default_output_device bind gets ret]. rewrite Hd. simpl. rewrite Hd.
      reflexivity.
Qed.

(** C9, as amended: a call of [schedule] with [replace] set and no track
    name, in which the splitting of the parameters goes through, raises
    [ValueError]; the list of tracks and the track objects are as before the
    call. *)
Theorem schedule_replace_requires_name E (params : ParamsArg) (quantize : option Q)
    (delay : Q) (count : option Z) (interp : Interpolation) (device : option DevId)
    (remove : bool) (track_index sel_track_idx : option Z) (s : Timeline)
    (params_list2 : list Params) (event_args : list (string * Z)) :
  split_params E (params_list_of params) [] [] = Ok (params_list2, event_args) ->
  exists s',
    schedule E params quantize delay count interp device remove None true
      track_index sel_track_idx s = (Raise ValueError, s') /\
    tracks s' = tracks s /\ heap_tracks s' = heap_tracks s.
Proof.
  intros Hsplit.
  destruct (default_device_tracks E device s) as (d & s1 & Hd & Ht & Hh & _).
  exists s1. split; [|split; assumption].
  unfold schedule. rewrite (bind_ok _ _ _ _ _ Hd), Hsplit.
  destruct params_list2 as [|param rest].
  - exfalso. apply (split_params_nonempty _ _ _ _ _ _ Hsplit); [|reflexivity].
    left. apply params_list_of_nonempty.
  - reflexivity.
Qed.

Lemma schedule_replace_requires_name_witness :
  exists s',
    schedule idle ParamsNone None 0 None INTERPOLATION_NONE None true None true
      None None half_past = (Raise ValueError, s') /\
    tracks s' = [] /\ heap_tracks s' = [].
Proof.
  exact (schedule_replace_requires_name idle ParamsNone None 0 None INTERPOLATION_NONE
           None true None None half_past [empty_params] [] eq_refl).
Defined.

(** C9 as stated fails: the parameters are split before [replace] and the
    name are looked at, and a sequence of actions without a sequence of
    durations stops the call there with [TypeError]. *)
Lemma schedule_replace_unnamed_type_error :
  schedule idle (ParamsDict two_callables) None 0 None INTERPOLATION_NONE (Some 0%nat)
    true None true None None half_past = (Raise TypeError, half_past) /\
  ~ (forall E params quantize delay count interp device remove track_index
            sel_track_idx s,
       exists s',
         schedule E params quantize delay count interp device remove None true
           track_index sel_track_idx s = (Raise ValueError, s')).
Proof.
  assert (Hrun : schedule idle (ParamsDict two_callables) None 0 None INTERPOLATION_NONE
                   (Some 0%nat) true None true None None half_past
                 = (Raise TypeError, half_past)) by (vm_compute; reflexivity).
  split; [exact Hrun|].
  intros H.
  destruct (H idle (ParamsDict two_callables) None 0%Q None INTERPOLATION_NONE
              (Some 0%nat) true None None half_past) as [s' Hs'].
  rewrite Hrun in Hs'. discriminate Hs'.
Qed.

(** [schedule] with [replace] and a name, a device given, and parameters
    without an action sequence: when there is a first track and its name is
    another one, the call returns that track and changes nothing, whatever
    the names of the tracks behind it. *)
Lemma schedule_replace_first_track E (p : Params) (quantize : option Q) (delay : Q)
    (count : option Z) (interp : Interpolation) (d : DevId) (remove : bool)
    (n : string) (track_index sel_track_idx : option Z) (s : Timeline)
    (t : TrackId) (ts : list TrackId) :
  is_action_sequence E (event_action p) = false ->
  tracks s = t :: ts ->
  name (heap_tracks s !!! t) <> Some n ->
  schedule E (ParamsDict p) quantize delay count interp (Some d) remove (Some n) true
    track_index sel_track_idx s
  = (Ok (ReturnTrack t), s).
Proof.
  intros Hseq Hts Hname.
  assert (Hsplit : split_params E [p] [] [] = Ok ([p], event_action_args p)).
  { simpl. unfold split_param. unfold is_action_sequence in Hseq.
    destruct (event_action p) as [|c|sequence repeats]; try reflexivity.
    now rewrite Hseq. }
  unfold schedule, default_output_device, bind at 1, ret at 1.
  change (params_list_of (ParamsDict p)) with [p]. rewrite Hsplit. simpl.
  unfold bind at 1, replace_track, bind at 1, gets at 1. rewrite Hts.
  unfold bind, gets, ret. simpl.
  rewrite bool_decide_eq_false_2 by exact Hname. reflexivity.
Qed.

(** C2, evaluated: with tracks "bass" and "lead" registered in this order,
    [schedule(louder, name="lead", replace=True)] returns the track "bass" and
    updates no track, and [schedule(louder, name="pad", replace=True)], for
    which no track has the name, returns the track "bass" as well and creates
    none.  A call for the name of the first track does update and return it. *)
Theorem schedule_replace_returns_first_track :
  name (heap_tracks bass_and_lead !!! 0%nat) = Some "bass"%string /\
  name (heap_tracks bass_and_lead !!! 1%nat) = Some "lead"%string /\
  schedule counting_updates (ParamsDict louder) None 0 None INTERPOLATION_NONE None true
    (Some "lead"%string) true None None bass_and_lead
  = (Ok (ReturnTrack 0%nat), bass_and_lead) /\
  schedule counting_updates (ParamsDict louder) None 0 None INTERPOLATION_NONE None true
    (Some "pad"%string) true None None bass_and_lead
  = (Ok (ReturnTrack 0%nat), bass_and_lead) /\
  (exists s',
     schedule counting_updates (ParamsDict louder) None 0 None INTERPOLATION_NONE None
       true (Some "bass"%string) true None None bass_and_lead
     = (Ok (ReturnTrack 0%nat), s') /\
     state (heap_tracks s' !!! 0%nat) = 1%nat /\ tracks s' = [0; 1]%nat).
Proof.
  split; [reflexivity|]. split; [reflexivity|].
  split; [vm_compute; reflexivity|]. split; [vm_compute; reflexivity|].
  eexists. split; [vm_compute; reflexivity|]. split; reflexivity.
Qed.

(** ** Frames *)

Lemma preserves_part {A X Y} (view : Timeline -> X) (part : Timeline -> Y) (m : M A) :
  (forall s s', view s' = view s -> part s' = part s) ->
  preserves view m -> preserves part m.
Proof. intros Hp Hm s r s' H. apply Hp. exact (Hm _ _ _ H). Qed.

Lemma collaborators_preserve_part {X Y} (view : Timeline -> X) (part : Timeline -> Y) E :
  (forall s s', view s' = view s -> part s' = part s) ->
  collaborators_preserve view E -> collaborators_preserve part E.
Proof.
  intros Hp (H1 & H2 & H3 & H4).
  repeat split; intros; eapply preserves_part; eauto.
Qed.

Section Frames.

Context {X : Type} (view : Timeline -> X).

Lemma preserves_ret {A} (a : A) : preserves view (ret a).
Proof. intros s r s' [= <- <-]. reflexivity. Qed.

Lemma preserves_raise {A} (e : exn) : preserves view (@raise A e).
Proof. intros s r s' [= <- <-]. reflexivity. Qed.

Lemma preserves_gets {A} (f : Timeline -> A) : preserves view (gets f).
Proof. intros s r s' [= <- <-]. reflexivity. Qed.

Lemma preserves_modify (f : Timeline -> Timeline) :
  (forall s, view (f s) = view s) -> preserves view (modify f).
Proof. intros H s r s' [= <- <-]. apply H. Qed.

Lemma preserves_bind {A B} (m : M A) (k : A -> M B) :
  preserves view m -> (forall a, preserves view (k a)) -> preserves view (bind m k).
Proof.
  intros Hm Hk s r s'. unfold bind.
  destruct (m s) as [[a|e] s1] eqn:H1.
  - intros H2. rewrite (Hk a _ _ _ H2). exact (Hm _ _ _ H1).
  - intros [= <- <-]. exact (Hm _ _ _ H1).
Qed.

Lemma preserves_try_except {A} (m : M A) (h : exn -> M A) :
  preserves view m -> (forall e, preserves view (h e)) -> preserves view (try_except m h).
Proof.
  intros Hm Hh s r s'. unfold try_except.
  destruct (m s) as [[a|e] s1] eqn:H1.
  - intros [= <- <-]. exact (Hm _ _ _ H1).
  - intros H2. rewrite (Hh e _ _ _ H2). exact (Hm _ _ _ H1).
Qed.

Lemma preserves_for_each {A} (l : list A) (body : A -> M unit) :
  (forall x, preserves view (body x)) -> preserves view (for_each l body).
Proof.
  intros Hb. induction l as [|x l IH]; simpl.
  - apply preserves_ret.
  - apply preserves_bind; [apply Hb | intros _; exact IH].
Qed.

Lemma preserves_if {A} (b : bool) (m1 m2 : M A) :
  preserves view m1 -> preserves view m2 -> preserves view (if b then m1 else m2).
Proof. destruct b; auto. Qed.

Hypothesis Hown : own_writes_hidden view.

Lemma preserves_logging (r : LogRecord) : preserves view (logging r).
Proof. apply preserves_modify. intros s. apply Hown. Qed.

Lemma preserves_remove_track (t : TrackId) : preserves view (remove_track t).
Proof.
  unfold remove_track. apply preserves_bind; [apply preserves_gets|].
  intros ts. destruct (list_remove Nat.eqb t ts).
  - apply preserves_modify. intros s. apply Hown.
  - apply preserves_raise.
Qed.

Lemma preserves_remove_action (a : Action) : preserves view (remove_action a).
Proof.
  unfold remove_action. apply preserves_bind; [apply preserves_gets|].
  intros acts. destruct (list_remove entry_eqb (ActionObject a) acts).
  - apply preserves_modify. intros s. apply Hown.
  - apply preserves_raise.
Qed.

Lemma preserves_unschedule (t : TrackId) : preserves view (unschedule t).
Proof.
  unfold unschedule. apply preserves_bind; [apply preserves_gets|].
  intros ts. apply preserves_if; [apply preserves_raise | apply preserves_remove_track].
Qed.

Lemma preserves_clear : preserves view clear.
Proof.
  unfold clear. apply preserves_bind; [apply preserves_gets|].
  intros ts. apply preserves_for_each, preserves_unschedule.
Qed.

Lemma preserves_schedule_action f quantize delay :
  preserves view (_schedule_action f quantize delay).
Proof.
  unfold _schedule_action. apply preserves_bind; [apply preserves_gets|].
  intros now. apply preserves_modify. intros s. apply Hown.
Qed.

Variable E : Collaborators.
Hypothesis HE : collaborators_preserve view E.

Lemma preserves_log_beat : preserves view log_beat.
Proof.
  unfold log_beat. apply preserves_bind; [apply preserves_gets|].
  intros now. apply preserves_if; [|apply preserves_ret].
  repeat (apply preserves_bind; [first [apply preserves_logging | apply preserves_gets]|];
          intros ?).
  apply preserves_logging.
Qed.

Lemma preserves_process_note_offs : preserves view (process_note_offs E).
Proof.
  unfold process_note_offs. apply preserves_bind; [apply preserves_gets|].
  intros ts. apply preserves_for_each. apply HE.
Qed.

Lemma preserves_flush_loop snapshot aligned : preserves view (flush_loop E snapshot aligned).
Proof.
  revert aligned. induction snapshot as [|x rest IH]; intros aligned; simpl.
  - apply preserves_ret.
  - apply preserves_bind; [apply preserves_gets|]. intros now.
    apply preserves_if; [|apply IH].
    apply preserves_bind; [apply HE|]. intros _.
    apply preserves_bind; [apply preserves_remove_action|]. intros _. apply IH.
Qed.

Lemma preserves_flush_actions : preserves view (flush_actions E).
Proof.
  unfold flush_actions. apply preserves_bind; [apply preserves_gets|]. intros snapshot.
  apply preserves_bind; [apply preserves_flush_loop|]. intros aligned.
  apply preserves_modify. intros s. apply Hown.
Qed.

Lemma preserves_advance_track t : preserves view (advance_track E t).
Proof.
  unfold advance_track. apply preserves_bind.
  - apply preserves_try_except; [apply HE|]. intros e.
    apply preserves_bind; [apply preserves_gets|]. intros ignore.
    apply preserves_if; [apply preserves_raise|].
    apply preserves_bind; [apply preserves_logging|]. intros _.
    apply preserves_remove_track.
  - intros _. apply preserves_bind; [apply preserves_gets|]. intros track.
    apply preserves_if; [|apply preserves_ret].
    apply preserves_bind; [apply preserves_remove_track|]. intros _.
    apply preserves_bind; [apply preserves_gets|]. intros n. apply preserves_logging.
Qed.

Lemma preserves_advance_tracks : preserves view (advance_tracks E).
Proof.
  unfold advance_tracks. apply preserves_bind; [apply preserves_gets|].
  intros ts. apply preserves_for_each, preserves_advance_track.
Qed.

Lemma preserves_check_exhausted : preserves view check_exhausted.
Proof.
  unfold check_exhausted.
  repeat (apply preserves_bind; [apply preserves_gets|]; intros ?).
  apply preserves_if; [apply preserves_raise | apply preserves_ret].
Qed.

Lemma preserves_before_tracks :
  preserves view (log_beat ;; process_note_offs E ;; flush_actions E).
Proof.
  apply preserves_bind; [apply preserves_log_beat|]. intros _.
  apply preserves_bind; [apply preserves_process_note_offs|]. intros _.
  apply preserves_flush_actions.
Qed.

End Frames.

Lemma bind_assoc {A B C} (m : M A) (k : A -> M B) (h : B -> M C) (s : Timeline) :
  bind (bind m k) h s = bind m (fun a => bind (k a) h) s.
Proof. unfold bind. destruct (m s) as [[a|e] s1]; reflexivity. Qed.

(** ** The phases of [tick] *)

Lemma clock_and_sinks_hidden : own_writes_hidden clock_and_sinks.
Proof. repeat split. Qed.

(** [tick] is its first three phases, then the rest. *)
Lemma tick_phases E (s : Timeline) :
  tick E s
  = ((log_beat ;; process_note_offs E ;; flush_actions E) ;;
     advance_tracks E ;; check_exhausted ;; advance_outputs E ;; advance_clock) s.
Proof.
  unfold tick, bind.
  destruct (log_beat s) as [[a|e] s0]; [|reflexivity].
  destruct (process_note_offs E s0) as [[b|e] s1]; reflexivity.
Qed.

(** ** The example collaborators and the frames *)

Lemma preserves_step_track {X} (view : Timeline -> X) t :
  own_writes_hidden view -> preserves view (step_track t).
Proof. intros H. apply preserves_modify. intros s. apply H. Qed.

Lemma preserves_finish_track {X} (view : Timeline -> X) t :
  own_writes_hidden view -> preserves view (finish_track t).
Proof. intros H. apply preserves_modify. intros s. apply H. Qed.

Lemma idle_preserves {X} (view : Timeline -> X) : collaborators_preserve view idle.
Proof. repeat split; intros; apply preserves_ret. Qed.

Lemma track0_raises_preserves {X} (view : Timeline -> X) :
  own_writes_hidden view -> collaborators_preserve view track0_raises.
Proof.
  intros H. repeat split; intros; try apply preserves_ret.
  simpl. apply preserves_if; [apply preserves_raise | now apply preserves_step_track].
Qed.

(** ** [tick]: a track that raises *)

(** A track whose [tick()] raises, without [ignore_exceptions]: the
    exception leaves the loop. *)
Lemma advance_track_propagates E (t : TrackId) (s s1 : Timeline) (e : exn) :
  track_tick E t s = (Raise e, s1) ->
  ignore_exceptions s1 = false ->
  advance_track E t s = (Raise e, s1).
Proof.
  intros Htick Hign. unfold advance_track, bind, try_except, gets.
  rewrite Htick, Hign. reflexivity.
Qed.

(** A track whose [tick()] raises, with [ignore_exceptions], and which is
    not both finished and to be removed when done: a warning is logged, the
    track is taken out of [tracks], and the loop goes on. *)
Lemma advance_track_evicts E (t : TrackId) (s s1 : Timeline) (e : exn)
    (l1 l2 : list TrackId) :
  track_tick E t s = (Raise e, s1) ->
  ignore_exceptions s1 = true ->
  tracks s1 = l1 ++ t :: l2 -> t ∉ l1 ->
  is_finished (heap_tracks s1 !!! t) && remove_when_done (heap_tracks s1 !!! t) = false ->
  advance_track E t s
  = (Ok tt, set_tracks (l1 ++ l2) (set_log (log s1 ++ [WarningTrackException e]) s1)).
Proof.
  intros Htick Hign Hts Hl1 Hfin.
  unfold advance_track, bind at 1, try_except. rewrite Htick.
  unfold bind at 1, gets at 1. rewrite Hign. simpl.
  unfold bind at 1, logging at 1, modify at 1.
  unfold remove_track, bind at 1, gets at 1. simpl. rewrite Hts.
  unfold TrackId in *. rewrite (list_remove_first t l1 l2 Hl1).
  unfold modify, bind, gets. simpl. rewrite Hfin. reflexivity.
Qed.

(** The same track, finished and to be removed when done, and in [tracks]
    once: the second [remove] raises [ValueError]. *)
Lemma advance_track_removes_twice E (t : TrackId) (s s1 : Timeline) (e : exn)
    (l1 l2 : list TrackId) :
  track_tick E t s = (Raise e, s1) ->
  ignore_exceptions s1 = true ->
  tracks s1 = l1 ++ t :: l2 -> t ∉ l1 -> t ∉ l2 ->
  is_finished (heap_tracks s1 !!! t) && remove_when_done (heap_tracks s1 !!! t) = true ->
  advance_track E t s
  = (Raise ValueError,
     set_tracks (l1 ++ l2) (set_log (log s1 ++ [WarningTrackException e]) s1)).
Proof.
  intros Htick Hign Hts Hl1 Hl2 Hfin.
  unfold advance_track, bind at 1, try_except. rewrite Htick.
  unfold bind at 1, gets at 1. rewrite Hign. simpl.
  unfold bind at 1, logging at 1, modify at 1.
  unfold remove_track, bind at 1, gets at 1. simpl. rewrite Hts.
  unfold TrackId in *. rewrite (list_remove_first t l1 l2 Hl1).
  unfold modify, bind, gets. simpl. rewrite Hfin.
  rewrite list_remove_absent; [reflexivity|].
  intros Hin. apply elem_of_app in Hin as [Hin|Hin]; contradiction.
Qed.

(** C4, evaluated on two tracks of which the first raises in [tick()].
    Without [ignore_exceptions] the exception leaves [tick()].  With it, and
    the failing track not finished, a warning is logged, that track alone is
    taken out, and the second track takes its step.  With it, and the failing
    track finished and to be removed when done, the track is taken out in the
    handler and once more after it: the second [remove] raises [ValueError],
    which leaves [tick()] before the second track has taken a step. *)
Theorem tick_failing_track_removed_twice :
  (exists s', tick track0_raises (two_tracks false) = (Raise (OtherException 1), s')) /\
  (exists s',
     tick track0_raises (two_tracks true) = (Ok tt, s') /\
     tracks s' = [1%nat] /\
     log s' = [WarningTrackException (OtherException 1)] /\
     state (heap_tracks s' !!! 1%nat) = 1%nat) /\
  (exists s',
     tick track0_finishes_and_raises (two_tracks true) = (Raise ValueError, s') /\
     tracks s' = [1%nat] /\
     log s' = [WarningTrackException (OtherException 1)] /\
     state (heap_tracks s' !!! 1%nat) = 0%nat).
Proof.
  split; [|split].
  - eexists. vm_compute. reflexivity.
  - eexists. split; [vm_compute; reflexivity|]. repeat split.
  - eexists. split; [vm_compute; reflexivity|]. repeat split.
Qed.

(** ** [tick]: the actions *)

(** What the loop over the actions hands to [self.actions = aligned_actions]:
    the actions of the snapshot that are not due, and nothing else. *)
Lemma flush_loop_aligned E (snapshot aligned acts : list ActionEntry) (s s' : Timeline) :
  collaborators_preserve current_time E ->
  flush_loop E snapshot aligned s = (Ok acts, s') ->
  current_time s' = current_time s /\
  acts = aligned ++ map (fun x => ActionObject (as_action x))
                      (List.filter (fun x => negb (due (current_time s) x)) snapshot).
Proof.
  intros HE. revert aligned s.
  induction snapshot as [|x rest IH]; intros aligned s; simpl.
  - intros [= <- <-]. split; [reflexivity | now rewrite app_nil_r].
  - unfold bind at 1, gets at 1. fold (due (current_time s) x).
    destruct (due (current_time s) x) eqn:Hdue; simpl.
    + intros H. apply bind_inv_ok in H as ([] & s1 & Hcall & H).
      apply bind_inv_ok in H as ([] & s2 & Hrem & H).
      assert (H1 : current_time s1 = current_time s)
        by (destruct HE as (_ & _ & _ & Hc); exact (Hc _ _ _ _ Hcall)).
      assert (H2 : current_time s2 = current_time s1).
      { refine (preserves_remove_action current_time _ _ _ _ _ Hrem). repeat split. }
      apply IH in H as [Hnow ->]. rewrite Hnow, H2, H1. split; reflexivity.
    + intros H. apply IH in H as [Hnow ->]. split; [exact Hnow|].
      now rewrite <- app_assoc.
Qed.

(** After a [flush_actions] that returns, [actions] holds the actions that
    were there before and were not due; what a callable has appended in
    between is not among them. *)
Lemma flush_actions_keeps_snapshot_only E (s s' : Timeline) :
  collaborators_preserve current_time E ->
  flush_actions E s = (Ok tt, s') ->
  actions s' = map (fun x => ActionObject (as_action x))
                 (List.filter (fun x => negb (due (current_time s) x)) (actions s)).
Proof.
  intros HE H. unfold flush_actions in H.
  apply bind_inv_ok in H as (snapshot & s0 & [= <- <-] & H).
  apply bind_inv_ok in H as (aligned & s1 & Hloop & [= <-]).
  now apply (flush_loop_aligned E _ _ _ _ _ HE) in Hloop as [_ ->].
Qed.

(** C1, evaluated on one due action whose callable schedules a second
    callable for one beat later.  The callable appends the new action to
    [actions]; the new action is not due; [tick()] returns; and after it
    [actions] is empty, so the new action can never fire. *)
Theorem tick_drops_action_scheduled_by_callable :
  (exists s1,
     call callable0_schedules 0%nat one_due_action = (Ok tt, s1) /\
     actions s1 = [ActionObject (mkAction 0 0%nat); ActionObject (mkAction 1 1%nat)]) /\
  (round8 1 <=? round8 (current_time one_due_action)) = false /\
  (exists s',
     tick callable0_schedules one_due_action = (Ok tt, s') /\
     actions s' = []).
Proof.
  split; [|split].
  - eexists. split; [vm_compute; reflexivity|]. reflexivity.
  - vm_compute. reflexivity.
  - eexists. split; [vm_compute; reflexivity|]. reflexivity.
Qed.

(** ** Writes to the output side *)

Section SinkFrames.

Context {X : Type} (view : Timeline -> X).
Hypothesis Hown : own_writes_hidden view.
Hypothesis Hsink : sink_writes_hidden view.
Variable E : Collaborators.
Hypothesis HE : collaborators_preserve view E.

Lemma preserves_make_clock_multiplier o i : preserves view (make_clock_multiplier o i).
Proof.
  unfold make_clock_multiplier. apply preserves_bind; [apply preserves_gets|]. intros n.
  apply preserves_bind; [|intros _; apply preserves_ret].
  apply preserves_modify. intros s. apply Hsink.
Qed.

Lemma preserves_add_output_device d : preserves view (add_output_device d).
Proof.
  unfold add_output_device.
  apply preserves_bind; [apply preserves_modify; intros s; apply Hsink|]. intros _.
  apply preserves_bind; [apply preserves_gets|]. intros rate.
  apply preserves_bind; [apply preserves_gets|]. intros tpb.
  apply preserves_bind; [apply preserves_make_clock_multiplier|]. intros cm.
  apply preserves_modify. intros s. apply Hsink.
Qed.

Lemma preserves_set_output_device d : preserves view (set_output_device d).
Proof.
  unfold set_output_device.
  apply preserves_bind; [apply preserves_modify; intros s; apply Hsink|]. intros _.
  apply preserves_add_output_device.
Qed.

Lemma preserves_MidiOutputDevice : preserves view (MidiOutputDevice E).
Proof.
  unfold MidiOutputDevice. apply preserves_bind; [apply preserves_gets|]. intros ds.
  apply preserves_bind; [|intros _; apply preserves_ret].
  apply preserves_modify. intros s. apply Hsink.
Qed.

Lemma preserves_device_tick d : preserves view (device_tick d).
Proof. apply preserves_modify. intros s. apply Hsink. Qed.

Lemma preserves_repeat (n : nat) (body : M unit) :
  preserves view body -> preserves view (repeat_ n body).
Proof.
  intros Hb. induction n as [|n IH]; simpl.
  - apply preserves_ret.
  - apply preserves_bind; [exact Hb | intros _; exact IH].
Qed.

Lemma preserves_next_clock_multiplier d : preserves view (next_clock_multiplier E d).
Proof.
  unfold next_clock_multiplier. apply preserves_bind; [apply preserves_gets|]. intros cms.
  destruct (cms !! d) as [cm|]; [|apply preserves_raise].
  apply preserves_bind; [apply preserves_modify; intros s; apply Hsink|]. intros _.
  destruct (clock_multiplier_yield E _ _ _); [apply preserves_ret | apply preserves_raise].
Qed.

Lemma preserves_advance_outputs : preserves view (advance_outputs E).
Proof.
  unfold advance_outputs. apply preserves_bind; [apply preserves_gets|]. intros ds.
  apply preserves_for_each. intros d. unfold advance_output.
  apply preserves_bind; [apply preserves_next_clock_multiplier|]. intros n.
  apply preserves_repeat, preserves_device_tick.
Qed.

(** Everything in [tick] before the clock is advanced. *)
Lemma preserves_before_clock :
  preserves view
    (log_beat ;; process_note_offs E ;; flush_actions E ;; advance_tracks E ;;
     check_exhausted ;; advance_outputs E).
Proof.
  apply preserves_bind; [now apply preserves_log_beat|]. intros _.
  apply preserves_bind; [now apply preserves_process_note_offs|]. intros _.
  apply preserves_bind; [now apply preserves_flush_actions|]. intros _.
  apply preserves_bind; [now apply preserves_advance_tracks|]. intros _.
  apply preserves_bind; [now apply preserves_check_exhausted|]. intros _.
  apply preserves_advance_outputs.
Qed.

(** A [tick] either stops before the clock is advanced, or comes to advance
    the clock in a state with the [view] it started with. *)
Lemma tick_cases (s : Timeline) r s' :
  tick E s = (r, s') ->
  (exists e, r = Raise e /\ view s' = view s) \/
  (exists s5, view s5 = view s /\ advance_clock s5 = (r, s')).
Proof.
  intros H.
  assert (Hsplit : tick E s
                   = ((log_beat ;; process_note_offs E ;; flush_actions E ;;
                       advance_tracks E ;; check_exhausted ;; advance_outputs E) ;;
                      advance_clock) s).
  { unfold tick, bind.
    repeat match goal with
           | |- context [match ?m ?x with pair _ _ => _ end] =>
               lazymatch m with
               | _ => destruct (m x) as [[[]|?] ?]; try reflexivity
               end
           end. }
  rewrite Hsplit in H. unfold bind at 1 in H.
  destruct ((log_beat ;; process_note_offs E ;; flush_actions E ;; advance_tracks E ;;
             check_exhausted ;; advance_outputs E) s) as [[[]|e] s5] eqn:Hpre.
  - right. exists s5. split; [exact (preserves_before_clock _ _ _ Hpre) | exact H].
  - left. injection H as <- <-. exists e. split; [reflexivity|].
    exact (preserves_before_clock _ _ _ Hpre).
Qed.

End SinkFrames.

Section ScheduleFrames.

Context {X : Type} (view : Timeline -> X).
Hypothesis Hown : own_writes_hidden view.
Variable E : Collaborators.
Hypothesis HE : collaborators_preserve view E.

Lemma preserves_new_track count interp device remove track_name :
  preserves view (new_track count interp device remove track_name).
Proof.
  unfold new_track. apply preserves_bind; [apply preserves_gets|]. intros h.
  apply preserves_bind; [|intros _; apply preserves_ret].
  apply preserves_modify. intros s. apply Hown.
Qed.

Lemma preserves_start_track track_index t : preserves view (start_track track_index t).
Proof.
  unfold start_track. apply preserves_bind.
  - apply preserves_modify. intros s. destruct track_index; apply Hown.
  - intros _. apply preserves_bind; [apply preserves_gets|]. intros n.
    now apply preserves_logging.
Qed.

Lemma preserves_replace_track track_name param quantize delay interp :
  preserves view (replace_track E track_name param quantize delay interp).
Proof.
  unfold replace_track. apply preserves_bind; [apply preserves_gets|]. intros ts.
  destruct ts as [|existing_track ts]; [apply preserves_ret|].
  apply preserves_bind; [apply preserves_gets|]. intros track.
  apply preserves_bind; [|intros _; apply preserves_ret].
  apply preserves_if; [apply HE | apply preserves_ret].
Qed.

Lemma preserves_schedule_loop quantize delay count interp device remove track_name
    replace track_index sel_track_idx params_list2 event_args tracks_list :
  preserves view
    (schedule_loop E quantize delay count interp device remove track_name replace
       track_index sel_track_idx params_list2 event_args tracks_list).
Proof.
  revert event_args tracks_list.
  induction params_list2 as [|param rest IH]; intros event_args tracks_list; simpl.
  - apply preserves_ret.
  - apply preserves_bind.
    + apply preserves_if; [|apply preserves_ret].
      destruct track_name; [apply preserves_replace_track | apply preserves_raise].
    + intros [existing_track|]; [apply preserves_ret|].
      apply preserves_bind; [apply preserves_gets|]. intros limit.
      apply preserves_bind; [apply preserves_gets|]. intros n.
      apply preserves_if; [apply preserves_raise|].
      apply preserves_bind; [apply preserves_new_track|]. intros track.
      apply preserves_bind; [apply HE|]. intros _.
      apply preserves_bind; [apply preserves_start_track|]. intros _.
      apply IH.
Qed.

Hypothesis Hsink : sink_writes_hidden view.

Lemma preserves_schedule params quantize delay count interp device remove track_name
    replace track_index sel_track_idx :
  preserves view
    (schedule E params quantize delay count interp device remove track_name replace
       track_index sel_track_idx).
Proof.
  unfold schedule. apply preserves_bind.
  - unfold default_output_device. destruct device as [d|]; [apply preserves_ret|].
    apply preserves_bind; [apply preserves_gets|]. intros n.
    apply preserves_bind.
    + apply preserves_if; [|apply preserves_ret].
      apply preserves_bind; [now apply preserves_MidiOutputDevice|]. intros d.
      now apply preserves_add_output_device.
    + intros _. apply preserves_bind; [apply preserves_gets|]. intros ds.
      destruct ds; [apply preserves_raise | apply preserves_ret].
  - intros d. destruct (split_params E _ _ _) as [[params_list2 event_args]|e].
    + apply preserves_schedule_loop.
    + apply preserves_raise.
Qed.

End ScheduleFrames.

(** ** The clock *)

Lemma clock_own : own_writes_hidden clock.
Proof. repeat split. Qed.

Lemma clock_sink : sink_writes_hidden clock.
Proof. repeat split. Qed.

Lemma advance_clock_ok (s s' : Timeline) :
  advance_clock s = (Ok tt, s') ->
  ticks_per_beat s <> 0 /\
  s' = set_current_time (current_time s + 1 / inject_Z (ticks_per_beat s))%Q s.
Proof.
  unfold advance_clock, tick_duration, bind, gets, modify, raise, ret.
  destruct (Z.eqb_spec (ticks_per_beat s) 0) as [H0|H0]; [discriminate|].
  intros [= <-]. split; [exact H0 | reflexivity].
Qed.

Lemma advance_clock_raise (s s' : Timeline) e :
  advance_clock s = (Raise e, s') -> s' = s.
Proof.
  unfold advance_clock, tick_duration, bind, gets, modify, raise, ret.
  destruct (ticks_per_beat s =? 0); [|discriminate].
  now intros [= _ <-].
Qed.

Lemma tick_ok_clock E (s s' : Timeline) :
  collaborators_preserve clock E ->
  tick E s = (Ok tt, s') ->
  ticks_per_beat s <> 0 /\
  current_time s' = (current_time s + 1 / inject_Z (ticks_per_beat s))%Q /\
  ticks_per_beat s' = ticks_per_beat s.
Proof.
  intros HE H.
  destruct (tick_cases clock clock_own clock_sink E HE s _ _ H)
    as [(e & He & _)|(s5 & Hv & Hc)]; [discriminate|].
  apply advance_clock_ok in Hc as [H0 ->].
  injection Hv as Hnow Htpb. simpl. rewrite Hnow, Htpb in *. repeat split; assumption.
Qed.

Lemma ticks_ok_clock E (n : nat) (s s' : Timeline) :
  collaborators_preserve clock E ->
  ticks E n s = (Ok tt, s') ->
  (current_time s'
   == current_time s + inject_Z (Z.of_nat n) * (1 / inject_Z (ticks_per_beat s)))%Q /\
  ticks_per_beat s' = ticks_per_beat s.
Proof.
  intros HE. revert s. induction n as [|n IH]; intros s H.
  - injection H as <-. split; [|reflexivity].
    change (inject_Z (Z.of_nat 0)) with 0%Q. ring.
  - simpl in H. apply bind_inv_ok in H as ([] & s1 & H1 & H2).
    apply (tick_ok_clock E _ _ HE) in H1 as (_ & Hnow & Htpb).
    apply IH in H2 as [Hn Ht]. split; [|congruence].
    rewrite Hn, Hnow, Htpb, Nat2Z.inj_succ. unfold Z.succ. rewrite inject_Z_plus.
    change (inject_Z 1) with 1%Q. ring.
Qed.

Lemma tick_duration_positive (tpb : Z) : 0 < tpb -> (0 < 1 / inject_Z tpb)%Q.
Proof.
  intros H. unfold Qdiv. rewrite Qmult_1_l. apply Qinv_lt_0_compat.
  change 0%Q with (inject_Z 0). now rewrite <- Zlt_Qlt.
Qed.

Lemma tick_clock_monotone E (s s' : Timeline) r :
  collaborators_preserve clock E ->
  0 < ticks_per_beat s -> tick E s = (r, s') -> (current_time s <= current_time s')%Q.
Proof.
  intros HE Hpos H.
  destruct (tick_cases clock clock_own clock_sink E HE s _ _ H)
    as [(e & He & Hv)|(s5 & Hv & Hc)].
  - injection Hv as -> _. apply Qle_refl.
  - injection Hv as Hnow Htpb. destruct r as [[]|e].
    + apply advance_clock_ok in Hc as [_ ->]. simpl. rewrite Hnow, Htpb.
      rewrite <- (Qplus_0_r (current_time s)) at 1.
      apply Qplus_le_r, Qlt_le_weak, tick_duration_positive, Hpos.
    + apply advance_clock_raise in Hc as ->. rewrite Hnow. apply Qle_refl.
Qed.

(** C6: a [tick()] that returns has added [1 / ticks_per_beat] to
    [current_time]; so [n] ticks that return, from a [current_time] of 0 at
    resolution [ticks_per_beat], take it to [n / ticks_per_beat]; at a
    positive resolution no [tick()], returning or raising, takes
    [current_time] back; and [schedule], [unschedule], [clear],
    [_schedule_action], [add_output_device] and [set_output_device] leave it
    where it is.  The collaborators are taken not to write to the clock
    themselves. *)
Theorem tick_advances_current_time E :
  collaborators_preserve clock E ->
  (forall s s',
     tick E s = (Ok tt, s') ->
     current_time s' = (current_time s + 1 / inject_Z (ticks_per_beat s))%Q) /\
  (forall n s s',
     (current_time s == 0)%Q ->
     ticks E n s = (Ok tt, s') ->
     (current_time s' == inject_Z (Z.of_nat n) / inject_Z (ticks_per_beat s))%Q) /\
  (forall s r s',
     0 < ticks_per_beat s -> tick E s = (r, s') ->
     (current_time s <= current_time s')%Q) /\
  (forall params quantize delay count interp device remove track_name replace
          track_index sel_track_idx,
     preserves current_time
       (schedule E params quantize delay count interp device remove track_name replace
          track_index sel_track_idx)) /\
  (forall t, preserves current_time (unschedule t)) /\
  preserves current_time clear /\
  (forall f quantize delay, preserves current_time (_schedule_action f quantize delay)) /\
  (forall d, preserves current_time (add_output_device d)) /\
  (forall d, preserves current_time (set_output_device d)).
Proof.
  intros HE.
  assert (Hown : own_writes_hidden current_time) by (repeat split).
  assert (Hsink : sink_writes_hidden current_time) by (repeat split).
  assert (HE' : collaborators_preserve current_time E).
  { apply (collaborators_preserve_part clock); [|exact HE].
    intros s s' Hc. now injection Hc. }
  refine (conj _ (conj _ (conj _ (conj _ (conj _ (conj _ (conj _ (conj _ _)))))))).
  - intros s s' H. now apply (tick_ok_clock E _ _ HE) in H as (_ & H & _).
  - intros n s s' H0 H. apply (ticks_ok_clock E _ _ _ HE) in H as [H _].
    rewrite H, H0. unfold Qdiv. ring.
  - intros s r s'. apply tick_clock_monotone, HE.
  - intros. now apply preserves_schedule.
  - intros. now apply preserves_unschedule.
  - now apply preserves_clear.
  - intros. now apply preserves_schedule_action.
  - intros. now apply preserves_add_output_device.
  - intros. now apply preserves_set_output_device.
Qed.

Lemma tick_advances_current_time_witness :
  exists s',
    ticks idle 4 at_rest = (Ok tt, s') /\ (current_time s' == 1)%Q /\
    (current_time at_rest <= current_time s')%Q.
Proof.
  destruct (tick_advances_current_time idle (idle_preserves _))
    as (_ & Hn & Hmono & _).
  eexists. split; [vm_compute; reflexivity|]. split.
  - rewrite (Hn 4%nat at_rest _ (Qeq_refl _)); [reflexivity | vm_compute; reflexivity].
  - destruct (tick idle at_rest) as [r s1] eqn:H1.
    apply Qle_trans with (current_time s1).
    + apply (Hmono at_rest r s1); [reflexivity | exact H1].
    + vm_compute in H1. injection H1 as <- <-. vm_compute. discriminate.
Defined.

(** ** [tick]: what a raising call leaves behind *)

(** [tick] is what it does up to the exhaustion check, then the outputs and
    the clock. *)
Lemma tick_before_outputs E (s : Timeline) :
  tick E s
  = ((log_beat ;; process_note_offs E ;; flush_actions E ;; advance_tracks E ;;
      check_exhausted) ;;
     advance_outputs E ;; advance_clock) s.
Proof.
  unfold tick, bind.
  repeat match goal with
         | |- context [match ?m ?x with pair _ _ => _ end] =>
             destruct (m x) as [[[]|?] ?]; try reflexivity
         end.
Qed.

Lemma preserves_before_outputs {X} (view : Timeline -> X) E :
  own_writes_hidden view -> collaborators_preserve view E ->
  preserves view
    (log_beat ;; process_note_offs E ;; flush_actions E ;; advance_tracks E ;;
     check_exhausted).
Proof.
  intros Hown HE.
  apply preserves_bind; [now apply preserves_log_beat|]. intros _.
  apply preserves_bind; [now apply preserves_process_note_offs|]. intros _.
  apply preserves_bind; [now apply preserves_flush_actions|]. intros _.
  apply preserves_bind; [now apply preserves_advance_tracks|]. intros _.
  apply preserves_check_exhausted.
Qed.

(** C10: whenever a [tick()] raises, [current_time] is what it was when
    [tick()] was called.  When the raise comes from the track-advance phase
    or an earlier one, or is the [StopIteration] of the exhaustion check,
    [tick()] raises that exception and leaves the state of that moment, in
    which no device has received a [tick()] and no clock multiplier has been
    advanced.  Every other raise of [tick()] comes from the output phase or
    from the advance of the clock, entered after the exhaustion check with
    devices and multipliers untouched; only such a raise can leave a device
    or a multiplier advanced.  The collaborators are taken not to write to
    the clock, the devices and the multipliers themselves. *)
Theorem tick_raise_leaves_clock_and_sinks E (s : Timeline) :
  collaborators_preserve clock_and_sinks E ->
  (forall e s', tick E s = (Raise e, s') -> current_time s' = current_time s) /\
  (forall e s2,
     (log_beat ;; process_note_offs E ;; flush_actions E ;; advance_tracks E ;;
      check_exhausted) s = (Raise e, s2) ->
     tick E s = (Raise e, s2) /\
     current_time s2 = current_time s /\
     heap_devices s2 = heap_devices s /\
     clock_multipliers s2 = clock_multipliers s) /\
  (forall s1,
     (log_beat ;; process_note_offs E ;; flush_actions E) s = (Ok tt, s1) ->
     (forall e s2,
        advance_tracks E s1 = (Raise e, s2) ->
        tick E s = (Raise e, s2) /\
        current_time s2 = current_time s /\
        heap_devices s2 = heap_devices s /\
        clock_multipliers s2 = clock_multipliers s) /\
     (forall s2 s3,
        advance_tracks E s1 = (Ok tt, s2) ->
        check_exhausted s2 = (Raise StopIteration, s3) ->
        tick E s = (Raise StopIteration, s3) /\
        current_time s3 = current_time s /\
        heap_devices s3 = heap_devices s /\
        clock_multipliers s3 = clock_multipliers s)) /\
  (forall e s',
     tick E s = (Raise e, s') ->
     ((log_beat ;; process_note_offs E ;; flush_actions E ;; advance_tracks E ;;
       check_exhausted) s = (Raise e, s') /\
      heap_devices s' = heap_devices s /\
      clock_multipliers s' = clock_multipliers s) \/
     (exists s4,
        (log_beat ;; process_note_offs E ;; flush_actions E ;; advance_tracks E ;;
         check_exhausted) s = (Ok tt, s4) /\
        heap_devices s4 = heap_devices s /\
        clock_multipliers s4 = clock_multipliers s /\
        (advance_outputs E ;; advance_clock) s4 = (Raise e, s'))).
Proof.
  intros HE.
  assert (Hpre5 : forall r s2,
             (log_beat ;; process_note_offs E ;; flush_actions E ;; advance_tracks E ;;
              check_exhausted) s = (r, s2) ->
             clock_and_sinks s2 = clock_and_sinks s).
  { intros r s2. apply (preserves_before_outputs _ E clock_and_sinks_hidden HE). }
  assert (Hearly : forall e s2,
             (log_beat ;; process_note_offs E ;; flush_actions E ;; advance_tracks E ;;
              check_exhausted) s = (Raise e, s2) ->
             tick E s = (Raise e, s2) /\
             current_time s2 = current_time s /\
             heap_devices s2 = heap_devices s /\
             clock_multipliers s2 = clock_multipliers s).
  { intros e s2 H. split.
    - rewrite tick_before_outputs. now rewrite (bind_raise _ _ _ _ _ H).
    - apply Hpre5 in H. now injection H as -> -> ->. }
  assert (Hcases : forall e s',
             tick E s = (Raise e, s') ->
             ((log_beat ;; process_note_offs E ;; flush_actions E ;; advance_tracks E ;;
               check_exhausted) s = (Raise e, s') /\
              heap_devices s' = heap_devices s /\
              clock_multipliers s' = clock_multipliers s) \/
             (exists s4,
                (log_beat ;; process_note_offs E ;; flush_actions E ;;
                 advance_tracks E ;; check_exhausted) s = (Ok tt, s4) /\
                heap_devices s4 = heap_devices s /\
                clock_multipliers s4 = clock_multipliers s /\
                (advance_outputs E ;; advance_clock) s4 = (Raise e, s'))).
  { intros e s' H. rewrite tick_before_outputs in H. unfold bind at 1 in H.
    destruct ((log_beat ;; process_note_offs E ;; flush_actions E ;; advance_tracks E ;;
               check_exhausted) s) as [[[]|e4] s4] eqn:H4.
    - right. exists s4. pose proof (Hpre5 _ _ eq_refl) as Hv. injection Hv as _ Hd Hm.
      repeat split; assumption.
    - left. injection H as <- <-. pose proof (Hpre5 _ _ eq_refl) as Hv.
      injection Hv as _ Hd Hm. repeat split; assumption. }
  refine (conj _ (conj Hearly (conj _ Hcases))).
  - intros e s' H.
    assert (Hown : own_writes_hidden current_time) by (repeat split).
    assert (Hsink : sink_writes_hidden current_time) by (repeat split).
    assert (HE' : collaborators_preserve current_time E).
    { apply (collaborators_preserve_part clock_and_sinks); [|exact HE].
      intros s1 s2 Hc. now injection Hc. }
    destruct (tick_cases current_time Hown Hsink E HE' s _ _ H)
      as [(e' & _ & Hv)|(s5 & Hv & Hc)]; [exact Hv|].
    apply advance_clock_raise in Hc as ->. exact Hv.
  - intros s1 Hpre. split.
    + intros e s2 Hadv. apply Hearly.
      unfold bind at 1. unfold bind at 1 in Hpre.
      destruct (log_beat s) as [[[]|e0] s0]; [|discriminate].
      unfold bind at 1. unfold bind at 1 in Hpre.
      destruct (process_note_offs E s0) as [[[]|e0] s01]; [|discriminate].
      unfold bind at 1. rewrite Hpre.
      now rewrite (bind_raise _ _ _ _ _ Hadv).
    + intros s2 s3 Hadv Hex. apply Hearly.
      unfold bind at 1. unfold bind at 1 in Hpre.
      destruct (log_beat s) as [[[]|e0] s0]; [|discriminate].
      unfold bind at 1. unfold bind at 1 in Hpre.
      destruct (process_note_offs E s0) as [[[]|e0] s01]; [|discriminate].
      unfold bind at 1. rewrite Hpre.
      rewrite (bind_ok _ _ _ _ _ Hadv). exact Hex.
Qed.

Lemma tick_raise_leaves_clock_and_sinks_witness :
  (exists e s2,
     tick track0_raises (two_tracks false) = (Raise e, s2) /\
     current_time s2 = current_time (two_tracks false) /\
     heap_devices s2 = heap_devices (two_tracks false)) /\
  (exists s3,
     tick idle (set_tracks [] two_tracks_stopping) = (Raise StopIteration, s3) /\
     current_time s3 = current_time two_tracks_stopping).
Proof.
  split.
  - destruct (tick_raise_leaves_clock_and_sinks track0_raises (two_tracks false)
                (track0_raises_preserves _ clock_and_sinks_hidden))
      as (_ & _ & Hphase & _).
    destruct (Hphase (two_tracks false) eq_refl) as [Hfail _].
    destruct (Hfail (OtherException 1) (two_tracks false) eq_refl) as (Ht & Hc & Hd & _).
    exists (OtherException 1), (two_tracks false). repeat split; assumption.
  - destruct (tick_raise_leaves_clock_and_sinks idle (set_tracks [] two_tracks_stopping)
                (idle_preserves _))
      as (_ & _ & Hphase & _).
    destruct (Hphase (set_tracks [] two_tracks_stopping) eq_refl) as [_ Hstop].
    destruct (Hstop (set_tracks [] two_tracks_stopping)
                (set_tracks [] two_tracks_stopping) eq_refl eq_refl)
      as (Ht & Hc & _).
    exists (set_tracks [] two_tracks_stopping). split; assumption.
Defined.

(** C10 as stated fails: a [tick()] can raise after devices have received
    their [tick()].  With two registered devices, the first one is advanced
    and then the clock multiplier of the second one raises; and at a
    resolution of zero the device is advanced and then [tick_duration]
    raises [ZeroDivisionError].  In both [current_time] is left as it
    was. *)
Lemma tick_raises_after_sink_advanced :
  collaborators_preserve clock_and_sinks uneven_rates /\
  output_devices (snd (add_output_device 1%nat studio)) = [0%nat; 1%nat] /\
  dev_ticks (heap_devices (snd (add_output_device 1%nat studio)) !!! 0%nat) = 0%nat /\
  (exists s',
     tick uneven_rates (snd (add_output_device 1%nat studio))
     = (Raise (OtherException 2), s') /\
     dev_ticks (heap_devices s' !!! 0%nat) = 1%nat /\
     current_time s' = current_time studio) /\
  (exists s',
     tick idle (set_ticks_per_beat 0 at_rest) = (Raise ZeroDivisionError, s') /\
     dev_ticks (heap_devices at_rest !!! 0%nat) = 0%nat /\
     dev_ticks (heap_devices s' !!! 0%nat) = 1%nat /\
     current_time s' = current_time at_rest) /\
  ~ (forall E s e s',
       collaborators_preserve clock_and_sinks E ->
       tick E s = (Raise e, s') ->
       current_time s' = current_time s /\ heap_devices s' = heap_devices s).
Proof.
  assert (HE : collaborators_preserve clock_and_sinks uneven_rates).
  { repeat split; intros; apply preserves_ret. }
  split; [exact HE|]. split; [reflexivity|]. split; [reflexivity|]. split; [|split].
  - eexists. split; [vm_compute; reflexivity|]. split; reflexivity.
  - eexists. split; [vm_compute; reflexivity|]. repeat split.
  - intros H.
    destruct (tick uneven_rates (snd (add_output_device 1%nat studio)))
      as [[[]|e] s'] eqn:Htick; [vm_compute in Htick; discriminate Htick|].
    destruct (H _ _ _ _ HE Htick) as [_ Hd].
    vm_compute in Htick. injection Htick as _ <-. vm_compute in Hd. discriminate Hd.
Qed.

(** ** Output devices and their clock multipliers *)

Lemma registry_own : own_writes_hidden registry.
Proof. repeat split. Qed.

Lemma registry_lookup (s s' : Timeline) (d : DevId) :
  registry s' = registry s ->
  identity_of <$> clock_multipliers s' !! d = identity_of <$> clock_multipliers s !! d.
Proof.
  intros H. injection H as _ _ H. rewrite <- !lookup_fmap. now rewrite H.
Qed.

Lemma registry_ok_transfer (s s' : Timeline) :
  registry s' = registry s -> registry_ok s -> registry_ok s'.
Proof.
  intros H [Hreg Hstamp]. pose proof H as Hv. injection Hv as Hd Hs _.
  split.
  - intros d Hin. rewrite Hd in Hin. specialize (Hreg d Hin).
    pose proof (registry_lookup s s' d H) as Hl.
    destruct (clock_multipliers s' !! d); [eauto|].
    destruct Hreg as [cm Hcm]. rewrite Hcm in Hl. discriminate.
  - intros d cm' Hcm'. pose proof (registry_lookup s s' d H) as Hl.
    rewrite Hcm' in Hl. destruct (clock_multipliers s !! d) as [cm|] eqn:Hcm; [|discriminate].
    injection Hl as Hser _ _. rewrite Hs, Hser. exact (Hstamp d cm Hcm).
Qed.

Lemma add_output_device_run (d : DevId) (s : Timeline) :
  add_output_device d s
  = (Ok tt,
     set_clock_multipliers
       (<[d := mkClockMultiplier (serial s) (dev_ticks_per_beat (heap_devices s !!! d))
                 (ticks_per_beat s) 0]> (clock_multipliers s))
       (set_serial (S (serial s)) (set_output_devices (output_devices s ++ [d]) s))).
Proof. reflexivity. Qed.

Lemma set_output_device_run (d : DevId) (s : Timeline) :
  set_output_device d s
  = (Ok tt,
     set_clock_multipliers
       (<[d := mkClockMultiplier (serial s) (dev_ticks_per_beat (heap_devices s !!! d))
                 (ticks_per_beat s) 0]> (clock_multipliers s))
       (set_serial (S (serial s)) (set_output_devices [d] s))).
Proof. reflexivity. Qed.

Lemma inserted_registry_ok (d : DevId) (devices : list DevId) (rate : Z) (s : Timeline) :
  registry_ok s ->
  (forall d', d' ∈ devices -> d' = d \/ d' ∈ output_devices s) ->
  registry_ok
    (set_clock_multipliers
       (<[d := mkClockMultiplier (serial s) rate (ticks_per_beat s) 0]>
          (clock_multipliers s))
       (set_serial (S (serial s)) (set_output_devices devices s))).
Proof.
  intros [Hreg Hstamp] Hdev. split; simpl.
  - intros d' Hin. destruct (decide (d = d')) as [<-|Hne].
    + rewrite lookup_insert_eq. eauto.
    + rewrite lookup_insert_ne by exact Hne.
      destruct (Hdev d' Hin) as [->|Hold]; [contradiction | now apply Hreg].
  - intros d' cm. destruct (decide (d = d')) as [<-|Hne].
    + rewrite lookup_insert_eq. intros [= <-]. simpl. lia.
    + rewrite lookup_insert_ne by exact Hne. intros Hcm.
      specialize (Hstamp d' cm Hcm). lia.
Qed.

Lemma preserves_registry_next E (d : DevId) :
  preserves registry (next_clock_multiplier E d).
Proof.
  intros s r s'. unfold next_clock_multiplier, bind, gets, modify.
  destruct (clock_multipliers s !! d) as [cm|] eqn:Hcm.
  - intros H.
    assert (Hs : s' = set_clock_multipliers
                        (<[d := mkClockMultiplier (cm_serial cm) (cm_output cm)
                                  (cm_input cm) (S (cm_calls cm))]> (clock_multipliers s)) s).
    { destruct (clock_multiplier_yield E _ _ _); now injection H. }
    subst s'. unfold registry. simpl. f_equal.
    rewrite fmap_insert. apply insert_id. rewrite lookup_fmap, Hcm. reflexivity.
  - intros [= _ <-]. reflexivity.
Qed.

Lemma preserves_registry_outputs E : preserves registry (advance_outputs E).
Proof.
  unfold advance_outputs. apply preserves_bind; [apply preserves_gets|]. intros ds.
  apply preserves_for_each. intros d. unfold advance_output.
  apply preserves_bind; [apply preserves_registry_next|]. intros n.
  induction (Z.to_nat n) as [|k IH]; simpl.
  - apply preserves_ret.
  - apply preserves_bind; [|intros _; exact IH].
    apply preserves_modify. reflexivity.
Qed.

Lemma preserves_registry_clock : preserves registry advance_clock.
Proof.
  unfold advance_clock. apply preserves_bind; [apply preserves_gets|]. intros now.
  apply preserves_bind.
  - unfold tick_duration. apply preserves_bind; [apply preserves_gets|]. intros tpb.
    apply preserves_if; [apply preserves_raise | apply preserves_ret].
  - intros d. apply preserves_modify. reflexivity.
Qed.

Lemma preserves_registry_tick E :
  collaborators_preserve registry E -> preserves registry (tick E).
Proof.
  intros HE. unfold tick.
  apply preserves_bind; [apply preserves_log_beat, registry_own|]. intros _.
  apply preserves_bind; [now apply preserves_process_note_offs|]. intros _.
  apply preserves_bind; [apply preserves_flush_actions; [apply registry_own | exact HE]|].
  intros _.
  apply preserves_bind; [apply preserves_advance_tracks; [apply registry_own | exact HE]|].
  intros _.
  apply preserves_bind; [apply preserves_check_exhausted|]. intros _.
  apply preserves_bind; [apply preserves_registry_outputs|]. intros _.
  apply preserves_registry_clock.
Qed.

(** The choice of the output device in [schedule] either leaves the registry
    as it is, or, when no device is registered, registers a new one. *)
Lemma default_output_device_registry E (device : option DevId) (s s1 : Timeline) r :
  default_output_device E device s = (r, s1) ->
  registry s1 = registry s \/
  (output_devices s = [] /\
   s1 = set_clock_multipliers
          (<[length (heap_devices s) :=
               mkClockMultiplier (serial s) (midi_ticks_per_beat E) (ticks_per_beat s) 0]>
             (clock_multipliers s))
          (set_serial (S (serial s))
             (set_output_devices [length (heap_devices s)]
                (set_heap_devices
                   (heap_devices s ++ [mkDevice (midi_ticks_per_beat E) 0]) s)))).
Proof.
  destruct device as [d|]; simpl.
  - intros [= _ <-]. now left.
  - destruct (output_devices s) as [|d ds] eqn:Hd.
    + intros H. right. split; [reflexivity|].
      destruct s as [tpb cms ods now mt ts stop acts run ign ht hd ser lg].
      simpl in Hd. subst ods.
      cbv [default_output_device bind gets modify ret MidiOutputDevice
           add_output_device make_clock_multiplier] in H. simpl in H.
      injection H as _ <-. unfold set_clock_multipliers, set_serial, set_output_devices,
        set_heap_devices. simpl.
      rewrite lookup_total_app_r by reflexivity.
      rewrite Nat.sub_diag. reflexivity.
    + intros H. left.
      cbv [default_output_device bind gets ret] in H. rewrite Hd in H. simpl in H.
      rewrite Hd in H. now injection H as _ <-.
Qed.

Lemma preserves_registry_schedule_loop E quantize delay count interp device remove
    track_name replace track_index sel_track_idx params_list2 event_args tracks_list :
  collaborators_preserve registry E ->
  preserves registry
    (schedule_loop E quantize delay count interp device remove track_name replace
       track_index sel_track_idx params_list2 event_args tracks_list).
Proof. intros HE. apply preserves_schedule_loop; [apply registry_own | exact HE]. Qed.

(** What [schedule] does to the registry is what its choice of the output
    device does to it. *)
Lemma schedule_registry E params quantize delay count interp device remove track_name
    replace track_index sel_track_idx (s s' : Timeline) r :
  collaborators_preserve registry E ->
  schedule E params quantize delay count interp device remove track_name replace
    track_index sel_track_idx s = (r, s') ->
  exists r1 s1, default_output_device E device s = (r1, s1) /\ registry s' = registry s1.
Proof.
  intros HE. unfold schedule, bind.
  destruct (default_output_device E device s) as [[d|e] s1] eqn:Hd.
  - intros H. exists (Ok d), s1. split; [reflexivity|].
    destruct (split_params E _ _ _) as [[params_list2 event_args]|e].
    + exact (preserves_registry_schedule_loop E _ _ _ _ _ _ _ _ _ _ _ _ _ HE _ _ _ H).
    + now injection H as _ <-.
  - intros [= _ <-]. exists (Raise e), s1. split; reflexivity.
Qed.

Lemma registers_dec (c : Call) (d : DevId) : registers c d \/ ~ registers c d.
Proof.
  destruct c; try (right; intros [H|H]; discriminate H).
  - destruct (decide (d0 = d)) as [->|Hne]; [left; now left|].
    right. intros [[= H]|H]; [contradiction | discriminate H].
  - destruct (decide (d0 = d)) as [->|Hne]; [left; now right|].
    right. intros [H|[= H]]; [discriminate H | contradiction].
Qed.

(** C7, as amended: every call keeps a clock multiplier for each registered
    device.  [add_output_device] and [set_output_device] make a new one for
    the device they register, also when a multiplier for that device was
    there before; no other call, and neither of the two for another device,
    puts a different multiplier object under a registered device, and
    [tick] takes values from the one that is there.  The registered devices
    stay free of duplicates as long as [add_output_device] is not called for
    a device that is registered already.  The collaborators are taken not to
    write to the registry themselves. *)
Theorem registry_kept E (c : Call) (s s' : Timeline) (r : result unit) :
  collaborators_preserve registry E ->
  registry_ok s ->
  perform E c s = (r, s') ->
  registry_ok s' /\
  (forall d, d ∈ output_devices s -> ~ registers c d ->
     identity_of <$> clock_multipliers s' !! d = identity_of <$> clock_multipliers s !! d) /\
  (forall d, registers c d ->
     d ∈ output_devices s' /\
     exists cm,
       clock_multipliers s' !! d = Some cm /\ cm_serial cm = serial s /\
       cm_calls cm = 0%nat /\
       forall old, clock_multipliers s !! d = Some old -> cm_serial old <> cm_serial cm) /\
  (NoDup (output_devices s) ->
   (forall d, c = CallAddOutputDevice d -> d ∉ output_devices s) ->
   NoDup (output_devices s')).
Proof.
  intros HE Hok Hrun.
  assert (Hsame : registry s' = registry s ->
                  registry_ok s' /\
                  (forall d, d ∈ output_devices s -> ~ registers c d ->
                     identity_of <$> clock_multipliers s' !! d
                     = identity_of <$> clock_multipliers s !! d) /\
                  (NoDup (output_devices s) ->
                   (forall d, c = CallAddOutputDevice d -> d ∉ output_devices s) ->
                   NoDup (output_devices s'))).
  { intros Hv. split; [now apply (registry_ok_transfer s)|]. split.
    - intros d _ _. now apply registry_lookup.
    - intros Hnd _. injection Hv as -> _ _. exact Hnd. }
  assert (Hnone : (forall d, ~ registers c d) ->
                    registry s' = registry s ->
                    registry_ok s' /\
                    (forall d, d ∈ output_devices s -> ~ registers c d ->
                       identity_of <$> clock_multipliers s' !! d
                       = identity_of <$> clock_multipliers s !! d) /\
                    (forall d, registers c d ->
                       d ∈ output_devices s' /\
                       exists cm,
                         clock_multipliers s' !! d = Some cm /\ cm_serial cm = serial s /\
                         cm_calls cm = 0%nat /\
                         forall old, clock_multipliers s !! d = Some old ->
                                     cm_serial old <> cm_serial cm) /\
                    (NoDup (output_devices s) ->
                     (forall d, c = CallAddOutputDevice d -> d ∉ output_devices s) ->
                     NoDup (output_devices s'))).
  { intros Hno Hv. destruct (Hsame Hv) as (H1 & H2 & H3).
    split; [exact H1|]. split; [exact H2|]. split; [|exact H3].
    intros d Hd. destruct (Hno d Hd). }
  destruct c as [|params quantize delay count interp device remove track_name replace
                    track_index sel_track_idx|t| |f quantize delay|d0|d0]; simpl in Hrun.
  - apply Hnone; [intros d [H|H]; discriminate H|].
    exact (preserves_registry_tick E HE _ _ _ Hrun).
  - assert (Hno : forall d, ~ registers
                     (CallSchedule params quantize delay count interp device remove
                        track_name replace track_index sel_track_idx) d)
      by (intros d [H|H]; discriminate H).
    unfold bind in Hrun.
    destruct (schedule E params quantize delay count interp device remove track_name
                replace track_index sel_track_idx s) as [r0 s0] eqn:Hs.
    assert (Hs0 : s0 = s') by (destruct r0; now injection Hrun). subst s0.
    destruct (schedule_registry E _ _ _ _ _ _ _ _ _ _ _ _ _ _ HE Hs)
      as (r1 & s1 & Hd & Hv).
    destruct (default_output_device_registry E _ _ _ _ Hd) as [Hv1|[Hempty ->]].
    + apply (Hnone Hno). now rewrite Hv.
    + split; [|split; [|split]].
      * apply (registry_ok_transfer _ _ Hv).
        apply (inserted_registry_ok _ _ _
                 (set_heap_devices (heap_devices s ++ [mkDevice (midi_ticks_per_beat E) 0]) s)).
        -- exact Hok.
        -- intros d' Hin. apply list_elem_of_singleton in Hin. now left.
      * intros d Hin. rewrite Hempty in Hin. inversion Hin.
      * intros d Hd'. destruct (Hno d Hd').
      * intros _ _. injection Hv as -> _ _. simpl. apply NoDup_singleton.
  - apply Hnone; [intros d [H|H]; discriminate H|].
    exact (preserves_unschedule _ registry_own _ _ _ _ Hrun).
  - apply Hnone; [intros d [H|H]; discriminate H|].
    exact (preserves_clear _ registry_own _ _ _ Hrun).
  - apply Hnone; [intros d [H|H]; discriminate H|].
    exact (preserves_schedule_action _ registry_own _ _ _ _ _ _ Hrun).
  - rewrite add_output_device_run in Hrun. injection Hrun as _ <-.
    split; [|split; [|split]].
    + apply inserted_registry_ok; [exact Hok|].
      intros d' Hin. apply elem_of_app in Hin as [Hin|Hin]; [now right|].
      apply list_elem_of_singleton in Hin. now left.
    + intros d Hin Hnot. simpl. rewrite lookup_insert_ne; [reflexivity|].
      intros ->. apply Hnot. now left.
    + intros d [[= <-]|[=]]. simpl. split.
      * apply elem_of_app. right. now apply list_elem_of_singleton.
      * eexists. split; [apply lookup_insert_eq|]. repeat split.
        intros old Hold. simpl. destruct Hok as [_ Hstamp].
        specialize (Hstamp _ _ Hold). lia.
    + intros Hnd Hfresh. simpl. apply NoDup_app. split; [exact Hnd|]. split.
      * intros x Hx Hx'. apply list_elem_of_singleton in Hx'. subst x.
        exact (Hfresh d0 eq_refl Hx).
      * apply NoDup_singleton.
  - rewrite set_output_device_run in Hrun. injection Hrun as _ <-.
    split; [|split; [|split]].
    + apply inserted_registry_ok; [exact Hok|].
      intros d' Hin. apply list_elem_of_singleton in Hin. now left.
    + intros d Hin Hnot. simpl. rewrite lookup_insert_ne; [reflexivity|].
      intros ->. apply Hnot. now right.
    + intros d [[=]|[= <-]]. simpl. split.
      * now apply list_elem_of_singleton.
      * eexists. split; [apply lookup_insert_eq|]. repeat split.
        intros old Hold. simpl. destruct Hok as [_ Hstamp].
        specialize (Hstamp _ _ Hold). lia.
    + intros _ _. simpl. apply NoDup_singleton.
Qed.

Lemma studio_ok : registry_ok studio.
Proof.
  split; simpl.
  - intros d Hd. apply list_elem_of_singleton in Hd as ->.
    rewrite lookup_singleton_eq. eauto.
  - intros d cm Hcm. apply lookup_singleton_Some in Hcm as [_ <-]. simpl. lia.
Qed.

Lemma registry_kept_witness :
  exists s',
    add_output_device 1%nat studio = (Ok tt, s') /\
    registry_ok s' /\
    output_devices s' = [0; 1]%nat /\
    NoDup (output_devices s') /\
    identity_of <$> clock_multipliers s' !! 0%nat = Some (0%nat, 24, 480) /\
    identity_of <$> clock_multipliers s' !! 1%nat = Some (1%nat, 96, 480).
Proof.
  eexists. split; [apply add_output_device_run|].
  destruct (registry_kept idle (CallAddOutputDevice 1%nat) studio _ (Ok tt)
              (idle_preserves _) studio_ok (add_output_device_run 1%nat studio))
    as (Hok & Hold & Hnew & Hnd).
  split; [exact Hok|]. split; [reflexivity|]. split; [|split].
  - apply Hnd.
    + simpl. apply NoDup_singleton.
    + intros d [= <-]. simpl. intros Hd. apply list_elem_of_singleton in Hd. discriminate Hd.
  - etransitivity; [apply (Hold 0%nat)|].
    + simpl. now apply list_elem_of_singleton.
    + intros [[= H]|[= H]].
    + reflexivity.
  - destruct (Hnew 1%nat (or_introl eq_refl)) as (_ & cm & Hcm & Hser & _ & _).
    simpl in *. rewrite lookup_insert_eq in *. injection Hcm as <-. reflexivity.
Defined.

(** C7 as stated fails: [add_output_device] does not look whether the device
    is registered already.  Called for the registered device of [studio], it
    leaves the device in [output_devices] twice, and puts a new clock
    multiplier in the place of the one the device had. *)
Lemma add_output_device_registered_twice :
  (exists s',
     add_output_device 0%nat studio = (Ok tt, s') /\
     output_devices studio = [0%nat] /\
     output_devices s' = [0; 0]%nat /\
     cm_serial <$> clock_multipliers studio !! 0%nat = Some 0%nat /\
     cm_serial <$> clock_multipliers s' !! 0%nat = Some 1%nat) /\
  ~ (forall d s s',
       NoDup (output_devices s) ->
       add_output_device d s = (Ok tt, s') ->
       NoDup (output_devices s')).
Proof.
  split.
  - eexists. split; [apply add_output_device_run|].
    split; [reflexivity|]. split; [reflexivity|]. split.
    + simpl. now rewrite lookup_singleton_eq.
    + simpl. now rewrite lookup_insert_eq.
  - intros H.
    assert (Hnd : NoDup (output_devices studio)) by apply NoDup_singleton.
    specialize (H 0%nat studio _ Hnd eq_refl). simpl in H.
    apply NoDup_cons in H as [Hin _]. apply Hin. now apply list_elem_of_singleton.
Qed.

(** * More properties *)

(** ** Tempo *)

(** X1: with a tempo that is not zero, [beats_to_seconds] undoes
    [seconds_to_beats] and [seconds_to_beats] undoes [beats_to_seconds]; with
    a tempo of zero, [seconds_to_beats] gives zero beats and
    [beats_to_seconds] raises [ZeroDivisionError]; without a tempo both raise
    [TypeError]. *)
Theorem seconds_beats_round_trip (tempo x : Q) :
  (~ (tempo == 0)%Q ->
   (exists b x', seconds_to_beats (Some tempo) x = Ok b /\
                 beats_to_seconds (Some tempo) b = Ok x' /\ (x' == x)%Q) /\
   (exists sec x', beats_to_seconds (Some tempo) x = Ok sec /\
                   seconds_to_beats (Some tempo) sec = Ok x' /\ (x' == x)%Q)) /\
  ((tempo == 0)%Q ->
   (exists b, seconds_to_beats (Some tempo) x = Ok b /\ (b == 0)%Q) /\
   beats_to_seconds (Some tempo) x = Raise ZeroDivisionError) /\
  seconds_to_beats None x = Raise TypeError /\
  beats_to_seconds None x = Raise TypeError.
Proof.
  split; [|split; [|split; reflexivity]].
  - intros Hne.
    assert (Hb : Qeq_bool tempo 0 = false).
    { destruct (Qeq_bool tempo 0) eqn:H; [|reflexivity].
      apply Qeq_bool_iff in H. contradiction. }
    unfold seconds_to_beats, beats_to_seconds. rewrite Hb. split.
    + eexists _, _. split; [reflexivity|]. split; [reflexivity|]. now field.
    + eexists _, _. split; [reflexivity|]. split; [reflexivity|]. now field.
  - intros H0. unfold seconds_to_beats, beats_to_seconds.
    assert (Hb : Qeq_bool tempo 0 = true) by now apply Qeq_bool_iff.
    rewrite Hb. split; [|reflexivity].
    eexists. split; [reflexivity|]. rewrite H0. unfold Qdiv. ring.
Qed.

Lemma seconds_beats_round_trip_witness :
  (exists b x', seconds_to_beats (Some 120%Q) 3 = Ok b /\
                beats_to_seconds (Some 120%Q) b = Ok x' /\ (x' == 3)%Q) /\
  beats_to_seconds (Some 0%Q) 3 = Raise ZeroDivisionError.
Proof.
  destruct (seconds_beats_round_trip 120 3) as (Hne & _).
  destruct (seconds_beats_round_trip 0 3) as (_ & H0 & _).
  split.
  - apply Hne. discriminate.
  - apply H0. reflexivity.
Defined.

(** ** [get_output_device] *)

(** X2: [get_output_device] returns the device when exactly one is
    registered and raises [MultipleOutputDevicesException] otherwise, also
    when none is registered; it changes nothing.  So after
    [set_output_device(d)] it returns [d]; after [add_output_device(d)] it
    returns [d] when no device was registered before, and raises when one
    was. *)
Theorem get_output_device_one_device (d : DevId) (s : Timeline) :
  (get_output_device s = (Ok d, s) <-> output_devices s = [d]) /\
  (get_output_device s = (Raise MultipleOutputDevicesException, s) <->
   length (output_devices s) <> 1%nat) /\
  (set_output_device d ;; get_output_device) s
  = (Ok d, snd (set_output_device d s)) /\
  (output_devices s = [] ->
   (add_output_device d ;; get_output_device) s = (Ok d, snd (add_output_device d s))) /\
  (output_devices s <> [] ->
   (add_output_device d ;; get_output_device) s
   = (Raise MultipleOutputDevicesException, snd (add_output_device d s))).
Proof.
  refine (conj _ (conj _ (conj _ (conj _ _)))).
  - unfold get_output_device, bind, gets.
    destruct (output_devices s) as [|d0 [|d1 ds]]; split; intros H;
      try discriminate H.
    + now injection H as ->.
    + now injection H as ->.
  - unfold get_output_device, bind, gets.
    destruct (output_devices s) as [|d0 [|d1 ds]]; split; intros H;
      try discriminate H; try reflexivity; simpl in *; try lia.
  - reflexivity.
  - intros H. rewrite (bind_ok _ _ _ _ _ (add_output_device_run d s)). simpl.
    unfold get_output_device, bind, gets. simpl. rewrite H. reflexivity.
  - intros H. rewrite (bind_ok _ _ _ _ _ (add_output_device_run d s)). simpl.
    unfold get_output_device, bind, gets. simpl.
    destruct (output_devices s) as [|d0 [|d1 ds]]; [contradiction| |]; reflexivity.
Qed.

Lemma get_output_device_one_device_witness :
  (add_output_device 1%nat ;; get_output_device) half_past
  = (Ok 1%nat, snd (add_output_device 1%nat half_past)) /\
  (add_output_device 1%nat ;; get_output_device) studio
  = (Raise MultipleOutputDevicesException, snd (add_output_device 1%nat studio)).
Proof.
  destruct (get_output_device_one_device 1%nat half_past) as (_ & _ & _ & Hnew & _).
  destruct (get_output_device_one_device 1%nat studio) as (_ & _ & _ & _ & Hmore).
  split; [apply Hnew; reflexivity | apply Hmore; discriminate].
Defined.

(** ** [get_track] *)

Lemma find_first {A} (f : A -> bool) (l : list A) :
  match List.find f l with
  | Some x => exists l1 l2, l = l1 ++ x :: l2 /\ f x = true /\
                            forall y, y ∈ l1 -> f y = false
  | None => forall y, y ∈ l -> f y = false
  end.
Proof.
  induction l as [|a l IH]; simpl.
  - intros y Hy. inversion Hy.
  - destruct (f a) eqn:Ha.
    + exists [], l. repeat split; [exact Ha|]. intros y Hy. inversion Hy.
    + destruct (List.find f l) as [x|].
      * destruct IH as (l1 & l2 & -> & Hx & Hl1).
        exists (a :: l1), l2. repeat split; [exact Hx|].
        intros y Hy. apply elem_of_cons in Hy as [->|Hy]; [exact Ha | now apply Hl1].
      * intros y Hy. apply elem_of_cons in Hy as [->|Hy]; [exact Ha | now apply IH].
Qed.

(** X3: [get_track] with a name returns, without changing anything, the
    first track of [tracks] that has the name, and [None] when no track of
    [tracks] has it. *)
Theorem get_track_by_name (n : string) (s : Timeline) :
  exists r,
    get_track (KeyStr n) s = (Ok r, s) /\
    (forall t, r = Some t ->
       exists l1 l2,
         tracks s = l1 ++ t :: l2 /\ name (heap_tracks s !!! t) = Some n /\
         forall u, u ∈ l1 -> name (heap_tracks s !!! u) <> Some n) /\
    (r = None <-> forall u, u ∈ tracks s -> name (heap_tracks s !!! u) <> Some n).
Proof.
  eexists. split; [reflexivity|].
  pose proof (find_first (fun t => bool_decide (name (heap_tracks s !!! t) = Some n))
                (tracks s)) as H.
  destruct (List.find _ (tracks s)) as [x|]; split.
  - intros t [= <-]. destruct H as (l1 & l2 & Hl & Hx & Hl1).
    exists l1, l2. split; [exact Hl|]. split; [now apply bool_decide_eq_true in Hx|].
    intros u Hu. specialize (Hl1 u Hu). now apply bool_decide_eq_false in Hl1.
  - split; [discriminate|]. intros Hall. exfalso.
    destruct H as (l1 & l2 & Hl & Hx & _). apply bool_decide_eq_true in Hx.
    apply (Hall x); [|exact Hx]. rewrite Hl. apply elem_of_app. right. apply elem_of_cons.
    now left.
  - discriminate.
  - split; [|reflexivity]. intros _ u Hu. specialize (H u Hu).
    now apply bool_decide_eq_false in H.
Qed.

Lemma get_track_by_name_witness :
  get_track (KeyStr "lead") bass_and_lead = (Ok (Some 1%nat), bass_and_lead) /\
  get_track (KeyStr "pad") bass_and_lead = (Ok None, bass_and_lead) /\
  (forall u, u ∈ tracks bass_and_lead ->
     name (heap_tracks bass_and_lead !!! u) <> Some "pad"%string).
Proof.
  split; [reflexivity|]. split; [reflexivity|].
  destruct (get_track_by_name "pad" bass_and_lead) as (r & Hrun & _ & Hnone).
  apply Hnone. now injection Hrun as <-.
Defined.

Lemma list_index_last {A} (l : list A) (x : A) : list_index (l ++ [x]) (-1) = Some x.
Proof.
  unfold list_index. rewrite length_app. simpl length.
  replace (0 <=? -1) with false by reflexivity. simpl andb.
  replace (- Z.of_nat (length l + 1) <=? -1) with true by (symmetry; apply Z.leb_le; lia).
  simpl. replace (Z.to_nat (Z.of_nat (length l + 1) + -1)) with (length l + 0)%nat by lia.
  now rewrite lookup_app_r, Nat.add_0_r, Nat.sub_diag by lia.
Qed.

(** X4: [get_track] with an index [i] returns [tracks[i]] for
    [0 <= i < len(tracks)], counts a negative [i >= -len(tracks)] from the
    end, so that [-1] is the last track, and raises [IndexError] for every
    other [i]; with an argument that is neither [int] nor [str] it raises
    [TypeError].  Nothing changes. *)
Theorem get_track_by_index (i : Z) (s : Timeline) :
  (0 <= i < Z.of_nat (length (tracks s)) ->
   exists t, tracks s !! Z.to_nat i = Some t /\
             get_track (KeyInt i) s = (Ok (Some t), s)) /\
  (- Z.of_nat (length (tracks s)) <= i < 0 ->
   exists t, tracks s !! Z.to_nat (Z.of_nat (length (tracks s)) + i) = Some t /\
             get_track (KeyInt i) s = (Ok (Some t), s)) /\
  (i < - Z.of_nat (length (tracks s)) \/ Z.of_nat (length (tracks s)) <= i ->
   get_track (KeyInt i) s = (Raise IndexError, s)) /\
  (forall l t, tracks s = l ++ [t] -> get_track (KeyInt (-1)) s = (Ok (Some t), s)) /\
  get_track KeyOther s = (Raise TypeError, s).
Proof.
  refine (conj _ (conj _ (conj _ (conj _ _)))).
  - intros [H0 Hn].
    destruct (tracks s !! Z.to_nat i) as [t|] eqn:Ht.
    + exists t. split; [reflexivity|].
      unfold get_track, bind, gets, list_index.
      replace (0 <=? i) with true by (symmetry; apply Z.leb_le; lia).
      replace (i <? Z.of_nat (length (tracks s))) with true
        by (symmetry; apply Z.ltb_lt; lia).
      simpl. now rewrite Ht.
    + apply lookup_ge_None in Ht. lia.
  - intros [Hn H0].
    destruct (tracks s !! Z.to_nat (Z.of_nat (length (tracks s)) + i)) as [t|] eqn:Ht.
    + exists t. split; [reflexivity|].
      unfold get_track, bind, gets, list_index.
      replace (0 <=? i) with false by (symmetry; apply Z.leb_gt; lia).
      replace (- Z.of_nat (length (tracks s)) <=? i) with true
        by (symmetry; apply Z.leb_le; lia).
      replace (i <? 0) with true by (symmetry; apply Z.ltb_lt; lia).
      simpl. now rewrite Ht.
    + apply lookup_ge_None in Ht. lia.
  - intros H. unfold get_track, bind, gets, list_index.
    destruct H as [H|H].
    + replace (0 <=? i) with false by (symmetry; apply Z.leb_gt; lia).
      replace (- Z.of_nat (length (tracks s)) <=? i) with false
        by (symmetry; apply Z.leb_gt; lia).
      reflexivity.
    + replace (i <? Z.of_nat (length (tracks s))) with false
        by (symmetry; apply Z.ltb_ge; lia).
      replace (i <? 0) with false by (symmetry; apply Z.ltb_ge; lia).
      now rewrite !andb_false_r.
  - intros l t Hl. unfold get_track, bind, gets. rewrite Hl, list_index_last. reflexivity.
  - reflexivity.
Qed.

Lemma get_track_by_index_witness :
  get_track (KeyInt 1) bass_and_lead = (Ok (Some 1%nat), bass_and_lead) /\
  get_track (KeyInt (-2)) bass_and_lead = (Ok (Some 0%nat), bass_and_lead) /\
  get_track (KeyInt 2) bass_and_lead = (Raise IndexError, bass_and_lead) /\
  get_track (KeyInt (-1)) bass_and_lead = (Ok (Some 1%nat), bass_and_lead).
Proof.
  destruct (get_track_by_index 1 bass_and_lead) as (H1 & _).
  destruct (get_track_by_index (-2) bass_and_lead) as (_ & H2 & _).
  destruct (get_track_by_index 2 bass_and_lead) as (_ & _ & H3 & Hlast & _).
  split; [|split; [|split]].
  - destruct H1 as (t & Ht & Hrun); [simpl; lia|]. now injection Ht as <-.
  - destruct H2 as (t & Ht & Hrun); [simpl; lia|]. now injection Ht as <-.
  - apply H3. right. simpl. lia.
  - apply (Hlast [0%nat] 1%nat). reflexivity.
Defined.

(** ** [_schedule_action]: where the time lands *)

Lemma quantized_time_bounds (now q : Q) :
  (0 < q)%Q ->
  (now <= q * inject_Z (Qceiling (now / q)))%Q /\
  (q * inject_Z (Qceiling (now / q)) < now + q)%Q.
Proof.
  intros Hq.
  pose proof (Qle_ceiling (now / q)) as Hup.
  pose proof (Qceiling_lt (now / q)) as Hlow.
  assert (Hx : (now / q * q == now)%Q) by (field; lra).
  set (x := (now / q)%Q) in *. set (c := Qceiling x) in *.
  assert (Hlow2 : (inject_Z c - 1 < x)%Q)
    by (unfold Z.sub in Hlow; rewrite inject_Z_plus in Hlow; exact Hlow).
  split; nra.
Qed.

Lemma quantized_time_bounds_negative (now q : Q) :
  (q < 0)%Q ->
  (now + q < q * inject_Z (Qceiling (now / q)))%Q /\
  (q * inject_Z (Qceiling (now / q)) <= now)%Q.
Proof.
  intros Hq.
  pose proof (Qle_ceiling (now / q)) as Hup.
  pose proof (Qceiling_lt (now / q)) as Hlow.
  assert (Hx : (now / q * q == now)%Q) by (field; lra).
  set (x := (now / q)%Q) in *. set (c := Qceiling x) in *.
  assert (Hlow2 : (inject_Z c - 1 < x)%Q)
    by (unfold Z.sub in Hlow; rewrite inject_Z_plus in Hlow; exact Hlow).
  split; nra.
Qed.

(** X5: with a positive quantization [q], the time [_schedule_action] gives
    the action is [delay] after a whole multiple of [q] that is not before
    [current_time] and less than [q] after it; so with a delay that is not
    negative the action is never set before now.  With a negative [q] the
    multiple is not after [current_time]. *)
Theorem schedule_action_time_bounds (f : FunId) (q delay : Q) (s : Timeline) :
  exists t : Q,
    _schedule_action f (Some q) delay s
    = (Ok tt, set_actions (actions s ++ [ActionObject (mkAction t f)]) s) /\
    ((0 < q)%Q ->
     (current_time s + delay <= t)%Q /\ (t < current_time s + q + delay)%Q /\
     (exists k : Z, (t == inject_Z k * q + delay)%Q) /\
     ((0 <= delay)%Q -> (current_time s <= t)%Q)) /\
    ((q < 0)%Q ->
     (t <= current_time s + delay)%Q /\ (current_time s + q + delay < t)%Q).
Proof.
  destruct (Qeq_bool q 0) eqn:Hq.
  - apply Qeq_bool_iff in Hq.
    exists (current_time s + delay)%Q. split; [|split].
    + unfold _schedule_action, bind, gets, modify, truthy.
      apply Qeq_bool_iff in Hq. now rewrite Hq.
    + intros H. lra.
    + intros H. lra.
  - exists (q * inject_Z (Qceiling (current_time s / q)) + delay)%Q. split; [|split].
    + unfold _schedule_action, bind, gets, modify, truthy. now rewrite Hq.
    + intros Hpos. destruct (quantized_time_bounds (current_time s) q Hpos) as [H1 H2].
      split; [lra|]. split; [lra|]. split.
      * exists (Qceiling (current_time s / q)). ring.
      * intros Hd. lra.
    + intros Hneg.
      destruct (quantized_time_bounds_negative (current_time s) q Hneg) as [H1 H2].
      split; lra.
Qed.

Lemma schedule_action_time_bounds_witness :
  exists t : Q,
    _schedule_action 0%nat (Some (1 # 4)) (1 # 8) half_past
    = (Ok tt, set_actions [ActionObject (mkAction t 0%nat)] half_past) /\
    ((1 # 2) <= t)%Q /\ (t < (1 # 2) + (1 # 4) + (1 # 8))%Q.
Proof.
  destruct (schedule_action_time_bounds 0%nat (1 # 4) (1 # 8) half_past)
    as (t & Hrun & Hpos & _).
  exists t. split; [exact Hrun|].
  destruct Hpos as (H1 & H2 & _ & H4); [reflexivity|].
  split; [apply H4; discriminate | exact H2].
Defined.

(** ** [tick]: when an action fires *)

Lemma round_half_even_cases (x : Q) :
  (inject_Z (Qfloor x) <= x)%Q /\ (x < inject_Z (Qfloor x) + 1)%Q /\
  (((x - inject_Z (Qfloor x) < 1 # 2)%Q /\ round_half_even x = Qfloor x) \/
   ((x - inject_Z (Qfloor x) == 1 # 2)%Q /\
    (round_half_even x = Qfloor x \/ round_half_even x = Qfloor x + 1)) \/
   (((1 # 2) < x - inject_Z (Qfloor x))%Q /\ round_half_even x = Qfloor x + 1)).
Proof.
  pose proof (Qfloor_le x) as H1. pose proof (Qlt_floor x) as H2.
  rewrite inject_Z_plus in H2. change (inject_Z 1) with 1%Q in H2.
  split; [exact H1|]. split; [exact H2|].
  unfold round_half_even.
  destruct (Qcompare_spec (x - inject_Z (Qfloor x)) (1 # 2)) as [H|H|H].
  - right. left. split; [exact H|]. destruct (Z.even (Qfloor x)); auto.
  - left. now split.
  - right. right. now split.
Qed.

(** Rounding moves a number by a half at most. *)
Lemma round_half_even_near (x : Q) :
  (inject_Z (round_half_even x) - x <= 1 # 2)%Q /\
  (x - inject_Z (round_half_even x) <= 1 # 2)%Q.
Proof.
  destruct (round_half_even_cases x) as (H1 & H2 & [[H ->]|[[H [-> | ->]]|[H ->]]]);
    rewrite ?inject_Z_plus; change (inject_Z 1) with 1%Q; split; lra.
Qed.

(** Rounding keeps the order. *)
Lemma round_half_even_monotone (x y : Q) :
  (x <= y)%Q -> round_half_even x <= round_half_even y.
Proof.
  intros Hxy. pose proof (Qfloor_resp_le _ _ Hxy) as Hf.
  destruct (round_half_even_cases x) as (Hx1 & Hx2 & Hx).
  destruct (round_half_even_cases y) as (Hy1 & Hy2 & Hy).
  destruct (Z.eq_dec (Qfloor x) (Qfloor y)) as [He|Hne].
  - pose proof (eq_refl (round_half_even x)) as Hdef.
    unfold round_half_even at 2 in Hdef.
    pose proof (eq_refl (round_half_even y)) as Hdefy.
    unfold round_half_even at 2 in Hdefy. rewrite <- He in *.
    destruct Hx as [[H Hr]|[[H Hr]|[H Hr]]];
      destruct Hy as [[H' Hr']|[[H' Hr']|[H' Hr']]]; try lia; try lra.
    destruct (Qcompare_spec (x - inject_Z (Qfloor x)) (1 # 2)); try lra.
    destruct (Qcompare_spec (y - inject_Z (Qfloor x)) (1 # 2)); try lra.
    lia.
  - assert (Qfloor x + 1 <= Qfloor y) by lia.
    assert (round_half_even x <= Qfloor x + 1)
      by (destruct Hx as [[_ ->]|[[_ [-> | ->]]|[_ ->]]]; lia).
    assert (Qfloor y <= round_half_even y)
      by (destruct Hy as [[_ ->]|[[_ [-> | ->]]|[_ ->]]]; lia).
    lia.
Qed.

Lemma round8_monotone (x y : Q) : (x <= y)%Q -> round8 x <= round8 y.
Proof.
  intros H. unfold round8. apply round_half_even_monotone.
  replace (inject_Z (10 ^ 8)) with (100000000 # 1)%Q by reflexivity. lra.
Qed.

Lemma due_reached (now : Q) (x : ActionEntry) :
  (time (as_action x) <= now)%Q -> due now x = true.
Proof. intros H. unfold due. apply Z.leb_le. now apply round8_monotone. Qed.

Lemma due_not_early (now : Q) (x : ActionEntry) :
  due now x = true -> (time (as_action x) <= now + (1 # 100000000))%Q.
Proof.
  unfold due, round8. intros H. apply Z.leb_le in H. rewrite Zle_Qle in H.
  destruct (round_half_even_near (time (as_action x) * inject_Z (10 ^ 8))) as [_ H1].
  destruct (round_half_even_near (now * inject_Z (10 ^ 8))) as [H2 _].
  replace (inject_Z (10 ^ 8)) with (100000000 # 1)%Q in * by reflexivity. lra.
Qed.

(** X6: after a [flush_actions] that returns, [actions] holds the actions
    that were there before and were not due, in their order and as [Action]
    objects, and nothing else.  An action whose time is not after
    [current_time] is due, and so is gone; an action whose time is more than
    1e-8 beats after [current_time] is not due, and so is still there; and an
    action that is due stays due at every later time.  The collaborators are
    taken not to write [current_time]. *)
Theorem flush_actions_on_time E (s s' : Timeline) :
  collaborators_preserve current_time E ->
  flush_actions E s = (Ok tt, s') ->
  actions s' = map (fun x => ActionObject (as_action x))
                 (List.filter (fun x => negb (due (current_time s) x)) (actions s)) /\
  (forall x, x ∈ actions s -> (time (as_action x) <= current_time s)%Q ->
     ActionObject (as_action x) ∉ actions s') /\
  (forall x, x ∈ actions s ->
     (current_time s + (1 # 100000000) < time (as_action x))%Q ->
     ActionObject (as_action x) ∈ actions s') /\
  (forall x later, (current_time s <= later)%Q ->
     due (current_time s) x = true -> due later x = true).
Proof.
  intros HE Hrun.
  pose proof (flush_actions_keeps_snapshot_only E s s' HE Hrun) as Hacts.
  split; [exact Hacts|]. split; [|split].
  - intros x Hx Ht Hin. rewrite Hacts in Hin. apply list_elem_of_In in Hin.
    apply in_map_iff in Hin as (y & Hy & Hin). apply filter_In in Hin as [_ Hnd].
    injection Hy as Hy. unfold due in Hnd. rewrite Hy in Hnd. fold (due (current_time s) x) in Hnd.
    rewrite (due_reached _ _ Ht) in Hnd. discriminate Hnd.
  - intros x Hx Ht. rewrite Hacts. apply list_elem_of_In, in_map_iff.
    exists x. split; [reflexivity|]. apply filter_In. split; [now apply list_elem_of_In|].
    destruct (due (current_time s) x) eqn:Hd; [|reflexivity].
    apply due_not_early in Hd. lra.
  - intros x later Hle Hd. unfold due in *. apply Z.leb_le. apply Z.leb_le in Hd.
    pose proof (round8_monotone _ _ Hle). lia.
Qed.

(** One action for now, one for beat 1, one for beat 2, at beat 1. *)
Lemma flush_actions_on_time_witness :
  let s := set_current_time 1
             (set_actions [ActionObject (mkAction 1 0%nat); ActionDict (mkAction 2 1%nat);
                           ActionObject (mkAction 0 2%nat)] half_past) in
  exists s', flush_actions idle s = (Ok tt, s') /\
             actions s' = [ActionObject (mkAction 2 1%nat)].
Proof.
  intros s. eexists. split; [vm_compute; reflexivity|].
  destruct (flush_actions_on_time idle s _ (idle_preserves _)
              ltac:(vm_compute; reflexivity)) as (Hacts & Hgone & Hkept & Hlater).
  assert (H0 : ActionObject (mkAction 1 0%nat) ∉ [ActionObject (mkAction 2 1%nat)]).
  { apply (Hgone (ActionObject (mkAction 1 0%nat))); [|discriminate].
    apply elem_of_cons. now left. }
  assert (H2 : ActionObject (mkAction 2 1%nat) ∈ [ActionObject (mkAction 2 1%nat)]).
  { apply (Hkept (ActionDict (mkAction 2 1%nat))); [|reflexivity].
    apply elem_of_cons. right. apply elem_of_cons. now left. }
  assert (H3 : due 5 (ActionObject (mkAction 1 0%nat)) = true).
  { apply (Hlater _ 5%Q); [discriminate | reflexivity]. }
  exact Hacts.
Defined.

(** ** [tick]: one track of the loop *)

(** X7: what the body of the loop over the tracks does with a track [t]
    that is in [tracks] after its [tick()].  When [t.tick()] returns and [t]
    is not both finished and to be removed when done, nothing more happens.
    When it returns and [t] is finished and to be removed when done, the first
    occurrence of [t] is taken out of [tracks] and the number of tracks left
    is logged.  When it raises and [ignore_exceptions] is not set, the
    exception leaves the loop.  When it raises, [ignore_exceptions] is set and
    [t] is not both finished and to be removed when done, a warning is logged,
    [t] is taken out of [tracks] and the loop goes on. *)
Theorem advance_track_outcomes E (t : TrackId) (s s1 : Timeline) (l1 l2 : list TrackId) :
  tracks s1 = l1 ++ t :: l2 -> t ∉ l1 ->
  (track_tick E t s = (Ok tt, s1) ->
   is_finished (heap_tracks s1 !!! t) && remove_when_done (heap_tracks s1 !!! t) = false ->
   advance_track E t s = (Ok tt, s1)) /\
  (track_tick E t s = (Ok tt, s1) ->
   is_finished (heap_tracks s1 !!! t) && remove_when_done (heap_tracks s1 !!! t) = true ->
   advance_track E t s
   = (Ok tt, set_log (log s1 ++ [InfoTrackFinished (length (l1 ++ l2))])
               (set_tracks (l1 ++ l2) s1))) /\
  (forall e,
     track_tick E t s = (Raise e, s1) -> ignore_exceptions s1 = false ->
     advance_track E t s = (Raise e, s1)) /\
  (forall e,
     track_tick E t s = (Raise e, s1) -> ignore_exceptions s1 = true ->
     is_finished (heap_tracks s1 !!! t) && remove_when_done (heap_tracks s1 !!! t) = false ->
     advance_track E t s
     = (Ok tt, set_tracks (l1 ++ l2) (set_log (log s1 ++ [WarningTrackException e]) s1))).
Proof.
  intros Hts Hl1. refine (conj _ (conj _ (conj _ _))).
  - intros Htick Hfin. unfold advance_track, bind, try_except, gets.
    rewrite Htick, Hfin. reflexivity.
  - intros Htick Hfin. unfold advance_track, bind at 1, try_except. rewrite Htick.
    unfold bind at 1, gets at 1. rewrite Hfin.
    unfold bind at 1, remove_track, bind at 1, gets at 1. rewrite Hts.
    unfold TrackId in *. rewrite (list_remove_first t l1 l2 Hl1).
    reflexivity.
  - intros e Htick Hign. now apply advance_track_propagates.
  - intros e Htick Hign Hfin. now apply advance_track_evicts.
Qed.

Lemma advance_track_outcomes_witness :
  advance_track track0_raises 1%nat (two_tracks true)
  = (Ok tt, snd (step_track 1%nat (two_tracks true))) /\
  advance_track track0_raises 0%nat (two_tracks false)
  = (Raise (OtherException 1), two_tracks false) /\
  advance_track track0_raises 0%nat (two_tracks true)
  = (Ok tt, set_tracks [1%nat]
              (set_log [WarningTrackException (OtherException 1)] (two_tracks true))) /\
  (exists s',
     advance_track idle 0%nat (snd (finish_track 0%nat (two_tracks true))) = (Ok tt, s') /\
     tracks s' = [1%nat] /\ log s' = [InfoTrackFinished 1]).
Proof.
  split; [|split; [|split]].
  - destruct (advance_track_outcomes track0_raises 1%nat (two_tracks true)
                (snd (step_track 1%nat (two_tracks true))) [0%nat] [] eq_refl)
      as (H & _); [by_decide|].
    apply H; reflexivity.
  - destruct (advance_track_outcomes track0_raises 0%nat (two_tracks false)
                (two_tracks false) [] [1%nat] eq_refl) as (_ & _ & H & _); [by_decide|].
    apply H; reflexivity.
  - destruct (advance_track_outcomes track0_raises 0%nat (two_tracks true)
                (two_tracks true) [] [1%nat] eq_refl) as (_ & _ & _ & H); [by_decide|].
    apply (H (OtherException 1)); reflexivity.
  - destruct (advance_track_outcomes idle 0%nat (snd (finish_track 0%nat (two_tracks true)))
                (snd (finish_track 0%nat (two_tracks true))) [] [1%nat] eq_refl)
      as (_ & H & _); [by_decide|].
    eexists. split; [apply H; reflexivity|]. split; reflexivity.
Defined.

(** ** [tick] only takes tracks out *)

Lemma bind_inv {A B} (m : M A) (k : A -> M B) s r s' :
  bind m k s = (r, s') ->
  (exists e, r = Raise e /\ m s = (Raise e, s')) \/
  (exists a s1, m s = (Ok a, s1) /\ k a s1 = (r, s')).
Proof.
  unfold bind. destruct (m s) as [[a|e] s1]; intros H.
  - right. exists a, s1. split; [reflexivity | exact H].
  - left. exists e. injection H as <- <-. split; reflexivity.
Qed.

Section Steps.

Variable R : Timeline -> Timeline -> Prop.
Hypothesis R_refl : forall s, R s s.
Hypothesis R_trans : forall s1 s2 s3, R s1 s2 -> R s2 s3 -> R s1 s3.

Lemma steps_ret {A} (a : A) : steps R (ret a).
Proof. intros s r s' [= <- <-]. apply R_refl. Qed.

Lemma steps_raise {A} (e : exn) : steps R (@raise A e).
Proof. intros s r s' [= <- <-]. apply R_refl. Qed.

Lemma steps_gets {A} (f : Timeline -> A) : steps R (gets f).
Proof. intros s r s' [= <- <-]. apply R_refl. Qed.

Lemma steps_modify (f : Timeline -> Timeline) :
  (forall s, R s (f s)) -> steps R (modify f).
Proof. intros H s r s' [= <- <-]. apply H. Qed.

Lemma steps_bind {A B} (m : M A) (k : A -> M B) :
  steps R m -> (forall a, steps R (k a)) -> steps R (bind m k).
Proof.
  intros Hm Hk s r s' H. apply bind_inv in H as [(e & _ & H)|(a & s1 & H1 & H2)].
  - exact (Hm _ _ _ H).
  - exact (R_trans _ _ _ (Hm _ _ _ H1) (Hk a _ _ _ H2)).
Qed.

Lemma steps_try_except {A} (m : M A) (h : exn -> M A) :
  steps R m -> (forall e, steps R (h e)) -> steps R (try_except m h).
Proof.
  intros Hm Hh s r s'. unfold try_except.
  destruct (m s) as [[a|e] s1] eqn:H1.
  - intros [= <- <-]. exact (Hm _ _ _ H1).
  - intros H2. exact (R_trans _ _ _ (Hm _ _ _ H1) (Hh e _ _ _ H2)).
Qed.

Lemma steps_for_each {A} (l : list A) (body : A -> M unit) :
  (forall x, steps R (body x)) -> steps R (for_each l body).
Proof.
  intros Hb. induction l as [|x l IH]; simpl.
  - apply steps_ret.
  - apply steps_bind; [apply Hb | intros _; exact IH].
Qed.

Lemma steps_if {A} (b : bool) (m1 m2 : M A) :
  steps R m1 -> steps R m2 -> steps R (if b then m1 else m2).
Proof. destruct b; auto. Qed.

(** The writes of [tick] other than the removal of a track. *)
Hypothesis R_log : forall v s, R s (set_log v s).
Hypothesis R_actions : forall v s, R s (set_actions v s).
Hypothesis R_multipliers : forall v s, R s (set_clock_multipliers v s).
Hypothesis R_devices : forall v s, R s (set_heap_devices v s).
Hypothesis R_time : forall v s, R s (set_current_time v s).
Hypothesis R_remove :
  forall t s l, list_remove Nat.eqb t (tracks s) = Some l -> R s (set_tracks l s).

Lemma steps_remove_track t : steps R (remove_track t).
Proof.
  unfold remove_track. intros s r s'. unfold bind, gets.
  destruct (list_remove Nat.eqb t (tracks s)) as [l|] eqn:Hl.
  - intros [= <- <-]. exact (R_remove t s l Hl).
  - intros [= <- <-]. apply R_refl.
Qed.

Lemma steps_unschedule t : steps R (unschedule t).
Proof.
  unfold unschedule. apply steps_bind; [apply steps_gets|]. intros ts.
  apply steps_if; [apply steps_raise | apply steps_remove_track].
Qed.

Lemma steps_clear : steps R clear.
Proof.
  unfold clear. apply steps_bind; [apply steps_gets|]. intros ts.
  apply steps_for_each, steps_unschedule.
Qed.

Variable E : Collaborators.
Hypothesis HE :
  (forall t, steps R (track_process_note_offs E t)) /\
  (forall t, steps R (track_tick E t)) /\
  (forall f, steps R (call E f)).

Lemma steps_flush_loop snapshot aligned : steps R (flush_loop E snapshot aligned).
Proof.
  revert aligned. induction snapshot as [|x rest IH]; intros aligned; simpl.
  - apply steps_ret.
  - apply steps_bind; [apply steps_gets|]. intros now.
    apply steps_if; [|apply IH].
    apply steps_bind; [apply (proj2 (proj2 HE))|]. intros _.
    apply steps_bind; [|intros _; apply IH].
    unfold remove_action. apply steps_bind; [apply steps_gets|]. intros acts.
    destruct (list_remove entry_eqb _ acts);
      [apply steps_modify; intros s; apply R_actions | apply steps_raise].
Qed.

Lemma steps_advance_track t : steps R (advance_track E t).
Proof.
  unfold advance_track. apply steps_bind.
  - apply steps_try_except; [apply (proj1 (proj2 HE))|]. intros e.
    apply steps_bind; [apply steps_gets|]. intros ignore.
    apply steps_if; [apply steps_raise|].
    apply steps_bind; [apply steps_modify; intros s; apply R_log|]. intros _.
    apply steps_remove_track.
  - intros _. apply steps_bind; [apply steps_gets|]. intros track.
    apply steps_if; [|apply steps_ret].
    apply steps_bind; [apply steps_remove_track|]. intros _.
    apply steps_bind; [apply steps_gets|]. intros n.
    apply steps_modify. intros s. apply R_log.
Qed.

Lemma steps_tick : steps R (tick E).
Proof.
  unfold tick.
  apply steps_bind.
  { unfold log_beat. apply steps_bind; [apply steps_gets|]. intros now.
    apply steps_if; [|apply steps_ret].
    apply steps_bind; [apply steps_modify; intros s; apply R_log|]. intros _.
    apply steps_bind; [apply steps_gets|]. intros n.
    apply steps_bind; [apply steps_gets|]. intros k.
    apply steps_modify. intros s. apply R_log. }
  intros _. apply steps_bind.
  { unfold process_note_offs. apply steps_bind; [apply steps_gets|]. intros ts.
    apply steps_for_each. apply (proj1 HE). }
  intros _. apply steps_bind.
  { unfold flush_actions. apply steps_bind; [apply steps_gets|]. intros snapshot.
    apply steps_bind; [apply steps_flush_loop|]. intros aligned.
    apply steps_modify. intros s. apply R_actions. }
  intros _. apply steps_bind.
  { unfold advance_tracks. apply steps_bind; [apply steps_gets|]. intros ts.
    apply steps_for_each, steps_advance_track. }
  intros _. apply steps_bind.
  { unfold check_exhausted.
    repeat (apply steps_bind; [apply steps_gets|]; intros ?).
    apply steps_if; [apply steps_raise | apply steps_ret]. }
  intros _. apply steps_bind.
  { unfold advance_outputs. apply steps_bind; [apply steps_gets|]. intros ds.
    apply steps_for_each. intros d. unfold advance_output.
    apply steps_bind.
    - unfold next_clock_multiplier. apply steps_bind; [apply steps_gets|]. intros cms.
      destruct (cms !! d) as [cm|]; [|apply steps_raise].
      apply steps_bind; [apply steps_modify; intros s; apply R_multipliers|]. intros _.
      destruct (clock_multiplier_yield E _ _ _); [apply steps_ret | apply steps_raise].
    - intros n. induction (Z.to_nat n) as [|k IH]; simpl; [apply steps_ret|].
      apply steps_bind; [|intros _; exact IH].
      apply steps_modify. intros s. apply R_devices. }
  intros _. unfold advance_clock. apply steps_bind; [apply steps_gets|]. intros now.
  apply steps_bind.
  - unfold tick_duration. apply steps_bind; [apply steps_gets|]. intros tpb.
    apply steps_if; [apply steps_raise | apply steps_ret].
  - intros d. apply steps_modify. intros s. apply R_time.
Qed.

End Steps.

Lemma list_remove_sublist (t : nat) (l l' : list nat) :
  list_remove Nat.eqb t l = Some l' -> sublist l' l.
Proof.
  revert l'. induction l as [|y l IH]; simpl; intros l'; [discriminate|].
  destruct (y =? t)%nat.
  - intros [= <-]. now apply sublist_cons.
  - destruct (list_remove Nat.eqb t l) as [r|]; [|discriminate].
    intros [= <-]. apply sublist_skip. now apply IH.
Qed.

Lemma tracks_shrink_refl (s : Timeline) : tracks_shrink s s.
Proof. split; reflexivity. Qed.

Lemma tracks_shrink_trans (s1 s2 s3 : Timeline) :
  tracks_shrink s1 s2 -> tracks_shrink s2 s3 -> tracks_shrink s1 s3.
Proof. intros [H1 H2] [H3 H4]. split; [now transitivity (tracks s2) | congruence]. Qed.

Lemma tracks_shrink_same (s s' : Timeline) :
  track_list s' = track_list s -> tracks_shrink s s'.
Proof. intros [= H1 H2]. split; [now rewrite H1 | exact H2]. Qed.


Lemma collaborators_shrink E :
  collaborators_preserve track_list E ->
  (forall t, steps tracks_shrink (track_process_note_offs E t)) /\
  (forall t, steps tracks_shrink (track_tick E t)) /\
  (forall f, steps tracks_shrink (call E f)).
Proof.
  intros (H1 & H2 & _ & H4).
  split; [|split]; intros x s r s' H; apply tracks_shrink_same.
  - exact (H1 _ _ _ _ H).
  - exact (H2 _ _ _ _ H).
  - exact (H4 _ _ _ _ H).
Qed.

(** X8: a [tick()], returning or raising, puts no track into [tracks]: what
    is in [tracks] afterwards was there before, in the same order, so there
    are not more tracks than before, and a list without duplicates stays
    without.  [unschedule] and [clear] are the same in this.  The
    collaborators are taken not to write to [tracks] themselves. *)
Theorem tick_only_removes_tracks E (s s' : Timeline) (r : result unit) :
  collaborators_preserve track_list E ->
  (tick E s = (r, s') ->
   sublist (tracks s') (tracks s) /\
   (length (tracks s') <= length (tracks s))%nat /\
   (NoDup (tracks s) -> NoDup (tracks s'))) /\
  (forall t, unschedule t s = (r, s') -> sublist (tracks s') (tracks s)) /\
  (clear s = (r, s') -> sublist (tracks s') (tracks s)).
Proof.
  intros HE.
  assert (Hrem : forall t s0 l, list_remove Nat.eqb t (tracks s0) = Some l ->
                                tracks_shrink s0 (set_tracks l s0)).
  { intros t s0 l Hl. split; [exact (list_remove_sublist _ _ _ Hl) | reflexivity]. }
  refine (conj _ (conj _ _)).
  - intros Hrun.
    assert (Hs : tracks_shrink s s').
    { refine (steps_tick tracks_shrink tracks_shrink_refl tracks_shrink_trans
                _ _ _ _ _ Hrem E (collaborators_shrink E HE) _ _ _ Hrun);
        intros; split; reflexivity. }
    destruct Hs as [Hsub _]. split; [exact Hsub|]. split.
    + now apply sublist_length.
    + intros Hnd. eapply sublist_NoDup; eassumption.
  - intros t Hrun.
    exact (proj1 (steps_unschedule tracks_shrink tracks_shrink_refl tracks_shrink_trans
                    Hrem t _ _ _ Hrun)).
  - intros Hrun.
    exact (proj1 (steps_clear tracks_shrink tracks_shrink_refl tracks_shrink_trans
                    Hrem _ _ _ Hrun)).
Qed.

Lemma step_track_track_list t : preserves track_list (step_track t).
Proof.
  apply preserves_modify. intros s. unfold track_list. simpl.
  now rewrite length_alter.
Qed.

Lemma track0_raises_track_list : collaborators_preserve track_list track0_raises.
Proof.
  split; [|split; [|split]]; intros; try apply preserves_ret.
  simpl. apply preserves_if; [apply preserves_raise | apply step_track_track_list].
Qed.

Lemma tick_only_removes_tracks_witness :
  exists s',
    tick track0_raises (two_tracks true) = (Ok tt, s') /\
    sublist (tracks s') [0; 1]%nat /\ NoDup (tracks s').
Proof.
  assert (Hrun : tick track0_raises (two_tracks true)
                 = (Ok tt, snd (tick track0_raises (two_tracks true))))
    by (vm_compute; reflexivity).
  exists (snd (tick track0_raises (two_tracks true))). split; [exact Hrun|].
  destruct (tick_only_removes_tracks track0_raises (two_tracks true)
              (snd (tick track0_raises (two_tracks true))) (Ok tt)
              track0_raises_track_list)
    as (Htick & _ & _).
  destruct (Htick Hrun) as (Hsub & _ & Hnd).
  split; [exact Hsub|]. apply Hnd. by_decide.
Defined.

(** ** [schedule] and the list of tracks *)

Lemma list_insert_at_split {A} (i : Z) (x : A) (l : list A) :
  exists k, list_insert_at i x l = take k l ++ x :: drop k l.
Proof. unfold list_insert_at. eexists. reflexivity. Qed.

Lemma list_insert_at_elem {A} (i : Z) (x y : A) (l : list A) :
  y ∈ list_insert_at i x l <-> y = x \/ y ∈ l.
Proof.
  destruct (list_insert_at_split i x l) as [k ->].
  rewrite <- (take_drop k l) at 3.
  rewrite !elem_of_app, elem_of_cons. tauto.
Qed.


Lemma list_insert_at_remove (i : Z) (t : nat) (l : list nat) :
  t ∉ l -> list_remove Nat.eqb t (list_insert_at i t l) = Some l.
Proof.
  destruct (list_insert_at_split i t l) as [k ->]. intros Ht.
  rewrite list_remove_first, take_drop; [reflexivity|].
  intros Hin. apply Ht. rewrite <- (take_drop k l). apply elem_of_app. now left.
Qed.









(** ** [schedule], then [unschedule] or [get_track] *)

(** A call of [schedule] for one set of parameters without an action
    sequence, without [replace], that returns: the track it returns is a new
    object, and it is in [tracks] where [track_index] says. *)
Lemma schedule_creates E (p : Params) (quantize : option Q) (delay : Q)
    (count : option Z) (interp : Interpolation) (device : option DevId) (remove : bool)
    (track_name : option string) (track_index sel_track_idx : option Z)
    (s s' : Timeline) (r : Scheduled) :
  collaborators_preserve track_list E ->
  is_action_sequence E (event_action p) = false ->
  schedule E (ParamsDict p) quantize delay count interp device remove track_name false
    track_index sel_track_idx s = (Ok r, s') ->
  r = ReturnTrack (length (heap_tracks s)) /\
  tracks s' = match track_index with
              | Some i => list_insert_at i (length (heap_tracks s)) (tracks s)
              | None => tracks s ++ [length (heap_tracks s)]
              end /\
  exists s2 s3 p' d',
    heap_tracks s2
    = heap_tracks s ++ [mkTrack track_name false remove count interp
                          (match device with Some d => d | None => d' end) 0] /\
    tracks s2 = tracks s /\
    track_update E (length (heap_tracks s)) p' quantize
      (if Qeq_bool delay 0 then event_delay p else Some delay) None s2 = (Ok tt, s3) /\
    heap_tracks s' = heap_tracks s3.
Proof.
  intros HE Hseq Hrun.
  assert (Hsplit : split_params E [p] [] [] = Ok ([p], event_action_args p)).
  { simpl. unfold split_param. unfold is_action_sequence in Hseq.
    destruct (event_action p) as [|c|sequence repeats]; try reflexivity.
    now rewrite Hseq. }
  unfold schedule in Hrun.
  destruct (default_device_tracks E device s) as (d & s1 & Hd & Ht & Hh & _).
  rewrite (bind_ok _ _ _ _ _ Hd) in Hrun.
  change (params_list_of (ParamsDict p)) with [p] in Hrun. rewrite Hsplit in Hrun.
  simpl in Hrun.
  unfold bind at 1, ret at 1 in Hrun.
  unfold bind at 1, gets at 1 in Hrun. unfold bind at 1, gets at 1 in Hrun.
  destruct (negb (max_tracks s1 =? 0) && (max_tracks s1 <=? Z.of_nat (length (tracks s1))));
    [discriminate Hrun|].
  unfold bind at 1, new_track, bind at 1, gets at 1, bind at 1, modify at 1, ret at 1
    in Hrun.
  apply bind_inv_ok in Hrun as ([] & s3 & H3 & Hrun).
  apply bind_inv_ok in Hrun as ([] & s4 & H4 & Hrun).
  injection Hrun as <- <-.
  pose proof (proj1 (proj2 (proj2 HE)) _ _ _ _ _ _ _ _ H3) as Hv.
  assert (Hts : tracks s3 = tracks s) by (rewrite <- Ht; exact (f_equal fst Hv)).
  rewrite Hh in *.
  split; [reflexivity|]. split.
  - unfold start_track, bind, modify, gets, logging, modify in H4.
    destruct track_index; injection H4 as <-; simpl; now rewrite Hts.
  - assert (Hdev : d = match device with Some d0 => d0 | None => d end).
    { destruct device as [d0|]; [|reflexivity].
      unfold default_output_device, ret in Hd. now injection Hd as <-. }
    exists (set_heap_tracks
              (heap_tracks s ++ [mkTrack track_name false remove count interp d 0]) s1),
      s3.
    eexists _, d. split; [|split; [|split]].
    + simpl. rewrite <- Hdev. reflexivity.
    + exact Ht.
    + exact H3.
    + unfold start_track, bind, modify, gets, logging, modify in H4.
      destruct track_index; now injection H4 as <-.
Qed.

(** X10: a call of [schedule] for one set of parameters without an action
    sequence, without [replace], that returns, returns one track, which is a
    new object and is in [tracks], now longer by one; [unschedule] of that
    track then returns and leaves [tracks] as it was before [schedule].  The
    tracks in [tracks] are taken to be track objects, and the collaborators
    not to write to [tracks] and not to make or drop track objects
    themselves. *)
Theorem schedule_then_unschedule E (p : Params) (quantize : option Q) (delay : Q)
    (count : option Z) (interp : Interpolation) (device : option DevId) (remove : bool)
    (track_name : option string) (track_index sel_track_idx : option Z)
    (s s' : Timeline) (r : Scheduled) :
  collaborators_preserve track_list E ->
  (forall u, u ∈ tracks s -> (u < length (heap_tracks s))%nat) ->
  is_action_sequence E (event_action p) = false ->
  schedule E (ParamsDict p) quantize delay count interp device remove track_name false
    track_index sel_track_idx s = (Ok r, s') ->
  exists t,
    r = ReturnTrack t /\ (t ∉ tracks s) /\ (t ∈ tracks s') /\
    length (tracks s') = S (length (tracks s)) /\
    unschedule t s' = (Ok tt, set_tracks (tracks s) s').
Proof.
  intros HE Hvalid Hseq Hrun.
  destruct (schedule_creates E _ _ _ _ _ _ _ _ _ _ _ _ _ HE Hseq Hrun) as (-> & Hts & _).
  set (t := length (heap_tracks s)) in *.
  assert (Hfresh : t ∉ tracks s) by (intros Hin; specialize (Hvalid t Hin); lia).
  exists t. split; [reflexivity|]. split; [exact Hfresh|].
  assert (Hin : t ∈ tracks s').
  { rewrite Hts. destruct track_index.
    - apply list_insert_at_elem. now left.
    - apply elem_of_app. right. now apply list_elem_of_singleton. }
  assert (Hrem : list_remove Nat.eqb t (tracks s') = Some (tracks s)).
  { rewrite Hts. destruct track_index.
    - now apply list_insert_at_remove.
    - rewrite list_remove_first by exact Hfresh. now rewrite app_nil_r. }
  split; [exact Hin|]. split.
  - rewrite Hts. destruct track_index.
    + destruct (list_insert_at_split z t (tracks s)) as [k ->].
      pose proof (f_equal length (take_drop k (tracks s))) as Hl.
      rewrite length_app in Hl. rewrite length_app. simpl. unfold TrackId in *. lia.
    + rewrite length_app. simpl. lia.
  - apply list_contains_elem in Hin.
    unfold unschedule, bind, gets. unfold TrackId in *. rewrite Hin. simpl.
    unfold remove_track, bind, gets, modify. unfold TrackId in *. now rewrite Hrem.
Qed.

Lemma schedule_then_unschedule_witness :
  exists s',
    schedule idle (ParamsDict louder) None 0 None INTERPOLATION_NONE None true
      (Some "pad"%string) false (Some 1) None bass_and_lead = (Ok (ReturnTrack 2%nat), s') /\
    tracks s' = [0; 2; 1]%nat /\
    unschedule 2%nat s' = (Ok tt, set_tracks [0; 1]%nat s').
Proof.
  eexists. split; [vm_compute; reflexivity|]. split; [reflexivity|].
  match goal with
  | |- unschedule _ ?s1 = _ =>
      destruct (schedule_then_unschedule idle louder None 0 None INTERPOLATION_NONE None
                  true (Some "pad"%string) (Some 1) None bass_and_lead s1
                  (ReturnTrack 2%nat) (idle_preserves _))
        as (t & Ht & _ & _ & _ & Hun)
  end.
  - intros u Hu. simpl in *.
    apply elem_of_cons in Hu as [->|Hu]; [lia|].
    apply list_elem_of_singleton in Hu as ->. lia.
  - reflexivity.
  - vm_compute. reflexivity.
  - injection Ht as <-. exact Hun.
Defined.

Lemma track_names_list E :
  collaborators_preserve track_names E -> collaborators_preserve track_list E.
Proof.
  apply collaborators_preserve_part. intros s s' [= Ht Hn]. unfold track_list.
  rewrite Ht. f_equal. rewrite <- (length_fmap name (heap_tracks s')), Hn.
  apply length_fmap.
Qed.

Lemma name_lookup (h h' : list Track) (u : nat) :
  name <$> h' = name <$> h -> name (h' !!! u) = name (h !!! u).
Proof.
  intros H. assert (Hlen : length h' = length h).
  { rewrite <- (length_fmap name h'), H. apply length_fmap. }
  pose proof (f_equal (fun l => l !! u) H) as Hu. simpl in Hu.
  rewrite !list_lookup_fmap in Hu.
  destruct (h' !! u) as [y'|] eqn:H1; destruct (h !! u) as [y|] eqn:H2;
    simpl in Hu; try discriminate Hu.
  - rewrite (list_lookup_total_correct _ _ _ H1), (list_lookup_total_correct _ _ _ H2).
    now injection Hu.
  - apply lookup_ge_None in H1, H2.
    rewrite !list_lookup_total_alt.
    assert (E1 : h' !! u = None) by (apply lookup_ge_None; lia).
    assert (E2 : h !! u = None) by (apply lookup_ge_None; lia).
    now rewrite E1, E2.
Qed.

Lemma find_first_match {A} (f : A -> bool) (l1 l2 : list A) (x : A) :
  (forall y, y ∈ l1 -> f y = false) -> f x = true ->
  List.find f (l1 ++ x :: l2) = Some x.
Proof.
  intros H1 Hx. induction l1 as [|a l1 IH]; simpl.
  - now rewrite Hx.
  - rewrite (H1 a) by (apply elem_of_cons; now left).
    apply IH. intros y Hy. apply H1, elem_of_cons. now right.
Qed.

(** X11: after a call of [schedule] for one set of parameters without an
    action sequence, with a name that no track in [tracks] has and without
    [replace], that returns, [get_track] with that name finds the track that
    [schedule] returned; without [track_index] the track is the last one,
    [get_track(-1)], and with [track_index = 0] it is the first one,
    [get_track(0)].  The tracks in [tracks] are taken to be track objects,
    and the collaborators not to write to [tracks], not to make or drop track
    objects and not to rename one themselves. *)
Theorem schedule_then_get_track E (p : Params) (quantize : option Q) (delay : Q)
    (count : option Z) (interp : Interpolation) (device : option DevId) (remove : bool)
    (n : string) (track_index sel_track_idx : option Z)
    (s s' : Timeline) (r : Scheduled) :
  collaborators_preserve track_names E ->
  (forall u, u ∈ tracks s -> (u < length (heap_tracks s))%nat) ->
  (forall u, u ∈ tracks s -> name (heap_tracks s !!! u) <> Some n) ->
  is_action_sequence E (event_action p) = false ->
  schedule E (ParamsDict p) quantize delay count interp device remove (Some n) false
    track_index sel_track_idx s = (Ok r, s') ->
  exists t,
    r = ReturnTrack t /\
    get_track (KeyStr n) s' = (Ok (Some t), s') /\
    (track_index = None -> get_track (KeyInt (-1)) s' = (Ok (Some t), s')) /\
    (track_index = Some 0 -> get_track (KeyInt 0) s' = (Ok (Some t), s')).
Proof.
  intros HE Hvalid Hnames Hseq Hrun.
  destruct (schedule_creates E _ _ _ _ _ _ _ _ _ _ _ _ _ (track_names_list E HE) Hseq Hrun)
    as (-> & Hts & s2 & s3 & p' & d' & Hh2 & Ht2 & Hup & Hh').
  set (t := length (heap_tracks s)) in *.
  exists t. split; [reflexivity|].
  pose proof (proj1 (proj2 (proj2 HE)) _ _ _ _ _ _ _ _ Hup) as Hv.
  assert (Hn : name <$> heap_tracks s' = name <$> heap_tracks s2)
    by (rewrite Hh'; exact (f_equal snd Hv)).
  assert (Hold : forall u, (u < t)%nat -> name (heap_tracks s' !!! u) = name (heap_tracks s !!! u)).
  { intros u Hu. rewrite (name_lookup _ _ u Hn), Hh2.
    now rewrite lookup_total_app_l by exact Hu. }
  assert (Hnew : name (heap_tracks s' !!! t) = Some n).
  { rewrite (name_lookup _ _ t Hn), Hh2.
    rewrite lookup_total_app_r by (unfold t; lia).
    unfold t. now rewrite Nat.sub_diag. }
  assert (Hf : forall u, u ∈ tracks s ->
                 bool_decide (name (heap_tracks s' !!! u) = Some n) = false).
  { intros u Hu. apply bool_decide_eq_false. rewrite Hold by (now apply Hvalid).
    now apply Hnames. }
  assert (Ht : bool_decide (name (heap_tracks s' !!! t) = Some n) = true)
    by (now apply bool_decide_eq_true).
  split; [|split].
  - unfold get_track, bind, gets, ret. rewrite Hts. f_equal. f_equal.
    destruct track_index as [i|].
    + destruct (list_insert_at_split i t (tracks s)) as [k ->].
      apply find_first_match; [|exact Ht].
      intros u Hu. apply Hf. rewrite <- (take_drop k (tracks s)). apply elem_of_app.
      now left.
    + apply find_first_match; [|exact Ht]. exact Hf.
  - intros ->. unfold get_track, bind, gets. rewrite Hts, list_index_last. reflexivity.
  - intros ->. unfold get_track, bind, gets. rewrite Hts.
    unfold list_insert_at, list_index. simpl.
    rewrite length_app. simpl. rewrite Z.min_l by lia. simpl.
    replace (0 <? Z.of_nat (0 + S (length (drop 0 (tracks s))))) with true
      by (symmetry; apply Z.ltb_lt; lia).
    reflexivity.
Qed.

Lemma schedule_then_get_track_witness :
  exists s',
    schedule idle (ParamsDict louder) None 0 None INTERPOLATION_NONE None true
      (Some "pad"%string) false None None bass_and_lead = (Ok (ReturnTrack 2%nat), s') /\
    get_track (KeyStr "pad") s' = (Ok (Some 2%nat), s') /\
    get_track (KeyInt (-1)) s' = (Ok (Some 2%nat), s').
Proof.
  eexists. split; [vm_compute; reflexivity|].
  match goal with
  | |- get_track _ ?s1 = _ /\ _ =>
      destruct (schedule_then_get_track idle louder None 0 None INTERPOLATION_NONE None
                  true "pad"%string None None bass_and_lead s1
                  (ReturnTrack 2%nat) (idle_preserves _))
        as (t & Ht & Hname & Hlast & _)
  end.
  - intros u Hu. simpl in *.
    apply elem_of_cons in Hu as [->|Hu]; [lia|].
    apply list_elem_of_singleton in Hu as ->. lia.
  - intros u Hu. simpl in Hu.
    apply elem_of_cons in Hu as [->|Hu]; [discriminate|].
    apply list_elem_of_singleton in Hu as ->. discriminate.
  - reflexivity.
  - vm_compute. reflexivity.
  - injection Ht as <-. split; [exact Hname | exact (Hlast eq_refl)].
Defined.

(** ** [schedule] and [max_tracks] *)

Lemma default_device_limit E (device : option DevId) (s : Timeline) :
  exists d s1,
    default_output_device E device s = (Ok d, s1) /\
    tracks s1 = tracks s /\ heap_tracks s1 = heap_tracks s /\
    max_tracks s1 = max_tracks s.
Proof.
  destruct device as [d|].
  - exists d, s. repeat split.
  - destruct (output_devices s) as [|d ds] eqn:Hd.
    + destruct s as [tpb cms ods now mt ts stop acts run ign ht hd ser lg].
      simpl in Hd. subst ods.
      eexists _, _. split.
      * cbv [default_output_device bind gets modify ret MidiOutputDevice
             add_output_device make_clock_multiplier]. simpl. reflexivity.
      * repeat split.
    + exists d, s. split; [|repeat split].
      cbv [default_output_device bind gets ret]. rewrite Hd. simpl. rewrite Hd.
      reflexivity.
Qed.

Lemma schedule_loop_within_limit E quantize delay count interp device remove track_name
    replace track_index sel_track_idx params_list2 event_args tracks_list s r s' :
  collaborators_preserve track_limit E ->
  0 < max_tracks s ->
  Z.of_nat (length (tracks s)) <= max_tracks s ->
  schedule_loop E quantize delay count interp device remove track_name replace
    track_index sel_track_idx params_list2 event_args tracks_list s = (r, s') ->
  max_tracks s' = max_tracks s /\ Z.of_nat (length (tracks s')) <= max_tracks s'.
Proof.
  intros HE. revert event_args tracks_list s.
  induction params_list2 as [|param rest IH]; intros event_args tracks_list s Hpos Hle;
    simpl.
  - intros [= _ <-]. now split.
  - intros H.
    assert (Hrep : forall n p q d i r0 s0,
               replace_track E n p q d i s = (r0, s0) -> track_limit s0 = track_limit s).
    { intros n p0 q d i r0 s0 H0. unfold replace_track, bind, gets in H0.
      destruct (tracks s) as [|existing ts]; [now injection H0 as _ <-|].
      destruct (bool_decide _).
      - destruct (track_update E existing p0 q (Some d) (Some i) s) as [[[]|e] s9] eqn:Hu;
          injection H0 as _ <-;
          exact (proj1 (proj2 (proj2 HE)) _ _ _ _ _ _ _ _ Hu).
      - now injection H0 as _ <-. }
    apply bind_inv in H as [(e & _ & H)|(returned & s0 & H0 & H)].
    + destruct replace; [|discriminate H].
      destruct track_name as [n|]; [|injection H as _ <-; now split].
      apply Hrep in H. injection H as Ht Hm. rewrite Ht, Hm. now split.
    + assert (Hv0 : track_limit s0 = track_limit s).
      { destruct replace; [|now injection H0 as _ <-].
        destruct track_name as [n|]; [|discriminate H0]. now apply Hrep in H0. }
      injection Hv0 as Ht0 Hm0. clear H0.
      destruct returned as [existing|];
        [injection H as _ <-; rewrite Ht0, Hm0; now split|].
      unfold bind at 1, gets at 1 in H. unfold bind at 1, gets at 1 in H.
      destruct (negb (max_tracks s0 =? 0) && (max_tracks s0 <=? Z.of_nat (length (tracks s0))))
        eqn:Hlim; [injection H as _ <-; rewrite Ht0, Hm0; now split|].
      assert (Hlt : Z.of_nat (length (tracks s0)) < max_tracks s0).
      { apply andb_false_iff in Hlim as [Hlim|Hlim].
        - apply negb_false_iff, Z.eqb_eq in Hlim. lia.
        - apply Z.leb_gt in Hlim. exact Hlim. }
      unfold bind at 1, new_track, bind at 1, gets at 1, bind at 1, modify at 1, ret at 1 in H.
      apply bind_inv in H as [(e & _ & H)|([] & s3 & H3 & H)].
      * pose proof (proj1 (proj2 (proj2 HE)) _ _ _ _ _ _ _ _ H) as Hv.
        injection Hv as Ht Hm. simpl in Ht, Hm. rewrite Ht, Hm, Hm0. split; [reflexivity|].
        rewrite <- Hm0. lia.
      * pose proof (proj1 (proj2 (proj2 HE)) _ _ _ _ _ _ _ _ H3) as Hv.
        injection Hv as Ht Hm. simpl in Ht, Hm.
        assert (Hstart : forall r4 s4, start_track track_index (length (heap_tracks s0)) s3
                                       = (r4, s4) ->
                   max_tracks s4 = max_tracks s /\
                   Z.of_nat (length (tracks s4)) <= max_tracks s4).
        { intros r4 s4 H4. unfold start_track, bind, modify, gets, logging, modify in H4.
          destruct track_index as [i|]; injection H4 as _ <-;
            unfold set_log, set_tracks; cbn [tracks max_tracks]; rewrite Hm, Hm0;
            (split; [reflexivity|]); rewrite Ht.
          - unfold TrackId in *.
            destruct (list_insert_at_split i (length (heap_tracks s0)) (tracks s0))
              as [k ->].
            pose proof (f_equal length (take_drop k (tracks s0))) as Hl.
            rewrite length_app in Hl. rewrite length_app. simpl.
            unfold TrackId in *. lia.
          - rewrite length_app. simpl. unfold TrackId in *. lia. }
        apply bind_inv in H as [(e & _ & H)|([] & s4 & H4 & H)].
        -- exact (Hstart _ _ H).
        -- destruct (Hstart _ _ H4) as [Hm4 Hle4].
           destruct (IH _ _ s4 ltac:(lia) Hle4 H) as [Hm' Hle'].
           split; [congruence | exact Hle'].
Qed.

(** X12: [schedule] and the limit.  A call without [replace], on a timeline
    whose [max_tracks] is not zero and not more than the number of its
    tracks, in which the splitting of the parameters goes through, raises
    [TrackLimitReachedException] and puts no track in.  And on a timeline
    with a positive [max_tracks] that it keeps to, no call of [schedule],
    returning or raising, with one or with several sets of parameters, takes
    the number of tracks over [max_tracks].  For the second the collaborators
    are taken not to write to [tracks] and [max_tracks] themselves. *)
Theorem schedule_keeps_to_max_tracks E (params : ParamsArg) (quantize : option Q)
    (delay : Q) (count : option Z) (interp : Interpolation) (device : option DevId)
    (remove : bool) (track_name : option string) (replace : bool)
    (track_index sel_track_idx : option Z) (s : Timeline) :
  (forall params_list2 event_args,
     replace = false ->
     max_tracks s <> 0 -> max_tracks s <= Z.of_nat (length (tracks s)) ->
     split_params E (params_list_of params) [] [] = Ok (params_list2, event_args) ->
     exists s',
       schedule E params quantize delay count interp device remove track_name replace
         track_index sel_track_idx s = (Raise TrackLimitReachedException, s') /\
       tracks s' = tracks s /\ heap_tracks s' = heap_tracks s) /\
  (forall r s',
     collaborators_preserve track_limit E ->
     0 < max_tracks s -> Z.of_nat (length (tracks s)) <= max_tracks s ->
     schedule E params quantize delay count interp device remove track_name replace
       track_index sel_track_idx s = (r, s') ->
     max_tracks s' = max_tracks s /\ Z.of_nat (length (tracks s')) <= max_tracks s').
Proof.
  destruct (default_device_limit E device s) as (d & s1 & Hd & Ht & Hh & Hm).
  split.
  - intros params_list2 event_args -> Hne Hle Hsplit.
    exists s1. split; [|split; assumption].
    unfold schedule. rewrite (bind_ok _ _ _ _ _ Hd), Hsplit.
    destruct params_list2 as [|param rest].
    + exfalso. apply (split_params_nonempty _ _ _ _ _ _ Hsplit); [|reflexivity].
      left. apply params_list_of_nonempty.
    + simpl. unfold bind at 1, ret at 1. unfold bind at 1, gets at 1.
      unfold bind at 1, gets at 1. rewrite Hm, Ht.
      replace (max_tracks s =? 0) with false by (symmetry; now apply Z.eqb_neq).
      replace (max_tracks s <=? Z.of_nat (length (tracks s))) with true
        by (symmetry; now apply Z.leb_le).
      reflexivity.
  - intros r s' HE Hpos Hle. unfold schedule. rewrite (bind_ok _ _ _ _ _ Hd).
    destruct (split_params E _ _ _) as [[params_list2 event_args]|e].
    + intros H. rewrite <- Hm, <- Ht in Hle. rewrite <- Hm in Hpos.
      destruct (schedule_loop_within_limit E _ _ _ _ _ _ _ _ _ _ _ _ _ _ _ _ HE Hpos Hle H)
        as [Hm' Hle']. split; [congruence | exact Hle'].
    + intros [= _ <-]. rewrite Hm, Ht. now split.
Qed.

(** Room for one more track: the first of two sets of parameters gets its
    track, the second is refused. *)
Lemma schedule_keeps_to_max_tracks_witness :
  let s := mkTimeline 480 ∅ [] 0 3 [0; 1]%nat false [] false false
             (heap_tracks bass_and_lead) [] 0 [] in
  exists s',
    schedule idle (ParamsList [louder; louder]) None 0 None INTERPOLATION_NONE None true
      None false None None s = (Raise TrackLimitReachedException, s') /\
    tracks s' = [0; 1; 2]%nat /\
    (exists s'',
       schedule idle (ParamsDict louder) None 0 None INTERPOLATION_NONE None true
         None false None None s' = (Raise TrackLimitReachedException, s'') /\
       tracks s'' = tracks s').
Proof.
  intros s.
  assert (Hrun : schedule idle (ParamsList [louder; louder]) None 0 None INTERPOLATION_NONE
                   None true None false None None s
                 = (Raise TrackLimitReachedException,
                    snd (schedule idle (ParamsList [louder; louder]) None 0 None
                           INTERPOLATION_NONE None true None false None None s)))
    by (vm_compute; reflexivity).
  eexists. split; [exact Hrun|].
  destruct (schedule_keeps_to_max_tracks idle (ParamsList [louder; louder]) None 0 None
              INTERPOLATION_NONE None true None false None None s) as [_ Hwithin].
  destruct (Hwithin _ _ (idle_preserves _) ltac:(reflexivity) ltac:(simpl; lia) Hrun)
    as [Hm Hle].
  split; [vm_compute; reflexivity|].
  match goal with
  | |- exists s'', schedule _ _ _ _ _ _ _ _ _ _ _ _ ?s1 = _ /\ _ =>
      destruct (schedule_keeps_to_max_tracks idle (ParamsDict louder) None 0 None
                  INTERPOLATION_NONE None true None false None None s1) as [Hfull _];
      destruct (Hfull [louder] [] eq_refl) as (s'' & Hs'' & Hts & _)
  end.
  - vm_compute. discriminate.
  - vm_compute. discriminate.
  - reflexivity.
  - exists s''. split; [exact Hs'' | exact Hts].
Defined.

(** ** A new timeline *)

(** X13: a timeline as [__init__] leaves it.  Every registered device has
    its clock multiplier; [get_output_device] returns the device the
    constructor was given, and raises when it was given none.  With
    [stop_when_done] set, the first [tick()] raises [StopIteration] at once,
    no event having been played.  Without it, and with no device and a
    resolution that is not zero, the first [tick()] returns and has done
    nothing but move [current_time] from 0 to [1 / ticks_per_beat] and log
    the start of the beat. *)
Theorem new_timeline_first_tick E (tpb : Z) (devices : list Device)
    (output_device : option DevId) :
  registry_ok (Timeline_init tpb devices output_device) /\
  (forall d, output_device = Some d ->
     get_output_device (Timeline_init tpb devices output_device)
     = (Ok d, Timeline_init tpb devices output_device)) /\
  (output_device = None ->
   get_output_device (Timeline_init tpb devices output_device)
   = (Raise MultipleOutputDevicesException, Timeline_init tpb devices output_device)) /\
  (exists s',
     tick E (set_stop_when_done true (Timeline_init tpb devices output_device))
     = (Raise StopIteration, s') /\
     current_time s' = 0%Q /\ heap_devices s' = devices) /\
  (output_device = None -> tpb <> 0 ->
   tick E (Timeline_init tpb devices None)
   = (Ok tt,
      set_current_time (0 + 1 / inject_Z tpb)%Q
        (set_log [DebugRule; DebugTick 0 0] (Timeline_init tpb devices None)))).
Proof.
  refine (conj _ (conj _ (conj _ (conj _ _)))).
  - unfold Timeline_init. destruct output_device as [d|].
    + rewrite add_output_device_run. simpl. split; simpl.
      * intros d' Hd'. apply list_elem_of_singleton in Hd' as ->.
        rewrite lookup_insert_eq. eauto.
      * intros d' cm Hcm. destruct (decide (d = d')) as [<-|Hne].
        -- rewrite lookup_insert_eq in Hcm. injection Hcm as <-. simpl. lia.
        -- rewrite lookup_insert_ne in Hcm by exact Hne.
           rewrite lookup_empty in Hcm. discriminate Hcm.
    + split; simpl.
      * intros d Hd. inversion Hd.
      * intros d cm Hcm. rewrite lookup_empty in Hcm. discriminate Hcm.
  - intros d ->. reflexivity.
  - intros ->. reflexivity.
  - destruct (tick_exhausted E
                (set_stop_when_done true (Timeline_init tpb devices output_device)))
      as [records Hrun].
    + unfold Timeline_init. destruct output_device; reflexivity.
    + unfold Timeline_init. destruct output_device; reflexivity.
    + reflexivity.
    + eexists. split; [exact Hrun|].
      unfold Timeline_init. destruct output_device; split; reflexivity.
  - intros _ Hne.
    set (s1 := set_log [DebugRule; DebugTick 0 0] (Timeline_init tpb devices None)).
    assert (H1 : log_beat (Timeline_init tpb devices None) = (Ok tt, s1)) by reflexivity.
    assert (H2 : process_note_offs E s1 = (Ok tt, s1)) by reflexivity.
    assert (H3 : flush_actions E s1 = (Ok tt, s1)) by reflexivity.
    assert (H4 : advance_tracks E s1 = (Ok tt, s1)) by reflexivity.
    assert (H5 : check_exhausted s1 = (Ok tt, s1)) by reflexivity.
    assert (H6 : advance_outputs E s1 = (Ok tt, s1)) by reflexivity.
    assert (H7 : advance_clock s1
                 = (Ok tt, set_current_time (0 + 1 / inject_Z tpb)%Q s1)).
    { unfold advance_clock, tick_duration, bind, gets, modify, ret. simpl.
      replace (tpb =? 0) with false by (symmetry; now apply Z.eqb_neq). reflexivity. }
    unfold tick.
    rewrite (bind_ok _ _ _ _ _ H1), (bind_ok _ _ _ _ _ H2), (bind_ok _ _ _ _ _ H3),
      (bind_ok _ _ _ _ _ H4), (bind_ok _ _ _ _ _ H5), (bind_ok _ _ _ _ _ H6).
    exact H7.
Qed.

Lemma new_timeline_first_tick_witness :
  get_output_device (Timeline_init 480 [mkDevice 24 0] (Some 0%nat))
  = (Ok 0%nat, Timeline_init 480 [mkDevice 24 0] (Some 0%nat)) /\
  get_output_device (Timeline_init 480 [] None)
  = (Raise MultipleOutputDevicesException, Timeline_init 480 [] None) /\
  (exists s', tick idle (Timeline_init 480 [] None) = (Ok tt, s') /\
              (current_time s' == 1 # 480)%Q).
Proof.
  destruct (new_timeline_first_tick idle 480 [mkDevice 24 0] (Some 0%nat))
    as (_ & Hdev & _).
  destruct (new_timeline_first_tick idle 480 [] None) as (_ & _ & Hnone & _ & Htick).
  split; [exact (Hdev 0%nat eq_refl)|]. split; [exact (Hnone eq_refl)|].
  eexists. split; [apply (Htick eq_refl); discriminate|]. reflexivity.
Defined.

(** ** [reset] and [reset_to_beat] *)

(** With a body that leaves [tracks] alone and fuel for every track, the
    loop over the list as it is comes to the same as a loop over the list as
    it was. *)
Lemma for_tracks_for_each (body : TrackId -> M unit) (fuel i : nat) (s : Timeline) :
  (forall t, preserves tracks (body t)) ->
  (length (tracks s) - i < fuel)%nat ->
  for_tracks fuel i body s = (for_each (drop i (tracks s)) body ;; ret true) s.
Proof.
  intros Hb. revert i s. induction fuel as [|k IH]; intros i s Hfuel; [lia|].
  simpl. unfold bind at 1, gets at 1.
  destruct (tracks s !! i) as [t|] eqn:Hi.
  - rewrite (drop_S _ _ _ Hi). simpl. unfold bind.
    destruct (body t s) as [[[]|e] s1] eqn:Hbody; [|reflexivity].
    pose proof (Hb t _ _ _ Hbody) as Hts.
    apply lookup_lt_Some in Hi.
    rewrite IH by (rewrite Hts; lia). unfold bind. rewrite Hts. reflexivity.
  - apply lookup_ge_None in Hi. rewrite drop_ge by exact Hi. reflexivity.
Qed.

(** X14: [reset_to_beat] puts [current_time] on the whole number of beats
    nearest to it, the even one of two that are equally near, which is at
    most half a beat away and can be after the time it was; it then calls
    [reset_to_beat] of every track, in the order of [tracks].  [reset] puts
    [current_time] to 0 and calls [reset] of every track.  The track methods
    are taken to leave [tracks] and [current_time] alone, and the loop to have
    fuel for every track. *)
Theorem reset_to_beat_nearest (track_reset track_reset_to_beat : TrackId -> M unit)
    (fuel : nat) (s : Timeline) :
  (forall t, preserves beat (track_reset_to_beat t)) ->
  (forall t, preserves beat (track_reset t)) ->
  (length (tracks s) < fuel)%nat ->
  (forall r s',
     reset_to_beat track_reset_to_beat fuel s = (r, s') ->
     r <> Ok false /\
     current_time s' = inject_Z (round_half_even (current_time s)) /\
     (current_time s' - current_time s <= 1 # 2)%Q /\
     (current_time s - current_time s' <= 1 # 2)%Q /\
     (r, s') = (for_each (tracks s) track_reset_to_beat ;; ret true)
                 (set_current_time (inject_Z (round_half_even (current_time s))) s)) /\
  (forall r s',
     reset track_reset fuel s = (r, s') ->
     r <> Ok false /\ current_time s' = 0%Q /\
     (r, s') = (for_each (tracks s) track_reset ;; ret true) (set_current_time 0 s)).
Proof.
  intros Hb Hr Hfuel.
  assert (Hloop : forall body v r s',
             (forall t, preserves beat (body t)) ->
             for_tracks fuel 0 body (set_current_time v s) = (r, s') ->
             r <> Ok false /\ current_time s' = v /\
             (r, s') = (for_each (tracks s) body ;; ret true) (set_current_time v s)).
  { intros body v r s' Hbody Hrun.
    rewrite for_tracks_for_each in Hrun.
    - simpl in Hrun. rewrite drop_0 in Hrun. split; [|split; [|now rewrite Hrun]].
      + apply bind_inv in Hrun as [(e & -> & _)|([] & s1 & _ & [= <- _])]; discriminate.
      + assert (Hp : preserves beat (for_each (tracks s) body ;; ret true)).
        { apply preserves_bind; [now apply preserves_for_each|]. intros _.
          apply preserves_ret. }
        now injection (Hp _ _ _ Hrun).
    - intros t. apply (preserves_part beat); [|apply Hbody]. now intros s0 s0' [= -> _].
    - simpl. lia. }
  split.
  - intros r s' Hrun. unfold reset_to_beat, bind at 1, modify at 1 in Hrun.
    destruct (Hloop _ _ _ _ Hb Hrun) as (H1 & H2 & H3).
    destruct (round_half_even_near (current_time s)) as [Hup Hdown].
    split; [exact H1|]. split; [exact H2|]. rewrite H2.
    split; [exact Hup|]. split; [exact Hdown | exact H3].
  - intros r s' Hrun. unfold reset, bind at 1, modify at 1 in Hrun.
    exact (Hloop _ _ _ _ Hr Hrun).
Qed.

Lemma reset_to_beat_nearest_witness :
  let s := set_current_time (7 # 4) bass_and_lead in
  exists s',
    reset_to_beat step_track 3 s = (Ok true, s') /\ current_time s' = 2%Q /\
    state (heap_tracks s' !!! 0%nat) = 1%nat /\ state (heap_tracks s' !!! 1%nat) = 1%nat /\
    current_time (snd (reset step_track 3 s)) = 0%Q.
Proof.
  intros s. eexists. split; [vm_compute; reflexivity|].
  assert (Hstep : forall t, preserves beat (step_track t))
    by (intros t; apply preserves_modify; reflexivity).
  destruct (reset_to_beat_nearest step_track step_track 3 s Hstep Hstep
              ltac:(simpl; lia)) as [Hbeat Hreset].
  destruct (Hbeat (Ok true) _ ltac:(vm_compute; reflexivity)) as (_ & Hnow & _).
  split; [reflexivity|]. split; [reflexivity|]. split; [reflexivity|].
  destruct (reset step_track 3 s) as [r0 s0] eqn:Hrun.
  now destruct (Hreset r0 s0 eq_refl) as (_ & H0 & _).
Defined.

(** ** [run] *)

Lemma for_each_start (device_start : DevId -> result unit) (l : list DevId) (s : Timeline) :
  (forall d, d ∈ l -> device_start d = Ok tt) ->
  for_each l (fun d => match device_start d with
                       | Ok _ => ret tt
                       | Raise e => raise e
                       end) s = (Ok tt, s).
Proof.
  induction l as [|d l IH]; intros H; simpl; [reflexivity|].
  unfold bind. rewrite (H d) by (apply elem_of_cons; now left). simpl.
  apply IH. intros d' Hd'. apply H, elem_of_cons. now right.
Qed.

(** X15: [run], with devices that start.  When the clock source stops with
    [StopIteration], [run] returns and [running] is cleared.  When the clock
    source returns, [run] returns and [running] is still set.  When the clock
    source stops with another exception, [run] raises it again unless
    [ignore_exceptions] is set, in which case it returns; [running] is still
    set in both cases.  So [run(stop_when_done=True)] on a timeline without
    tracks and actions, with a clock source that makes at least one call of
    [tick], returns with [running] cleared and [current_time] where it was. *)
Theorem run_outcomes E (device_start : DevId -> result unit) (clock_run : M unit)
    (stop : option bool) (s : Timeline) :
  (forall d, d ∈ output_devices s -> device_start d = Ok tt) ->
  (forall s2,
     clock_run (set_running true
                  (match stop with Some b => set_stop_when_done b s | None => s end))
     = (Raise StopIteration, s2) ->
     run device_start clock_run stop s = (Ok tt, set_running false s2)) /\
  (forall s2,
     clock_run (set_running true
                  (match stop with Some b => set_stop_when_done b s | None => s end))
     = (Ok tt, s2) ->
     run device_start clock_run stop s = (Ok tt, s2)) /\
  (forall e s2,
     e <> StopIteration ->
     clock_run (set_running true
                  (match stop with Some b => set_stop_when_done b s | None => s end))
     = (Raise e, s2) ->
     run device_start clock_run stop s
     = (if ignore_exceptions s2 then Ok tt else Raise e, s2)) /\
  (forall n,
     tracks s = [] -> actions s = [] -> stop = Some true ->
     exists s',
       run device_start (ticks E (S n)) stop s = (Ok tt, s') /\
       running s' = false /\ current_time s' = current_time s /\ tracks s' = []).
Proof.
  intros Hstart.
  set (s0 := match stop with Some b => set_stop_when_done b s | None => s end).
  assert (Hpre : forall m : M unit,
             run device_start m stop s
             = try_except (devices <- gets output_devices ;;
                           for_each devices
                             (fun d => match device_start d with
                                       | Ok _ => ret tt
                                       | Raise e => raise e
                                       end) ;;
                           modify (set_running true) ;; m)
                 (fun e =>
                    match e with
                    | StopIteration => modify (set_running false)
                    | _ => ignore <- gets ignore_exceptions ;;
                           if negb ignore then raise e else ret tt
                    end) s0).
  { intros m. unfold run, bind at 1. destruct stop; reflexivity. }
  assert (Hbody : forall (m : M unit) r s2,
             m (set_running true s0) = (r, s2) ->
             (devices <- gets output_devices ;;
              for_each devices
                (fun d => match device_start d with
                          | Ok _ => ret tt
                          | Raise e => raise e
                          end) ;;
              modify (set_running true) ;; m) s0 = (r, s2)).
  { intros m r s2 Hm. unfold bind at 1, gets at 1.
    assert (Hdev : output_devices s0 = output_devices s) by (unfold s0; now destruct stop).
    rewrite Hdev.
    rewrite (bind_ok _ _ _ _ _ (for_each_start device_start _ s0 Hstart)).
    unfold bind, modify. exact Hm. }
  refine (conj _ (conj _ (conj _ _))).
  - intros s2 Hrun. rewrite Hpre. unfold try_except. now rewrite (Hbody _ _ _ Hrun).
  - intros s2 Hrun. rewrite Hpre. unfold try_except. now rewrite (Hbody _ _ _ Hrun).
  - intros e s2 He Hrun. rewrite Hpre. unfold try_except. rewrite (Hbody _ _ _ Hrun).
    destruct e; try contradiction; unfold bind, gets;
      destruct (ignore_exceptions s2); reflexivity.
  - intros n Ht Ha ->.
    destruct (tick_exhausted E (set_running true (set_stop_when_done true s)))
      as [records Htick]; try assumption; [reflexivity|].
    assert (Hticks : ticks E (S n) (set_running true (set_stop_when_done true s))
                     = (Raise StopIteration,
                        set_log (log s ++ records)
                          (set_running true (set_stop_when_done true s)))).
    { simpl. now rewrite (bind_raise _ _ _ _ _ Htick). }
    eexists. split.
    + rewrite Hpre. unfold try_except. rewrite (Hbody _ _ _ Hticks). reflexivity.
    + repeat split. exact Ht.
Qed.

Lemma run_outcomes_witness :
  exists s',
    run (fun _ => Ok tt) (ticks idle 3) (Some true) half_past = (Ok tt, s') /\
    running s' = false /\ current_time s' = (1 # 2)%Q.
Proof.
  destruct (run_outcomes idle (fun _ => Ok tt) (ticks idle 3) (Some true) half_past)
    as (_ & _ & _ & Hdone).
  - reflexivity.
  - destruct (Hdone 2%nat eq_refl eq_refl eq_refl) as (s' & Hrun & Hr & Hc & _).
    exists s'. repeat split; assumption.
Defined.

(** ** A clock source without resolution *)

(** X16: at [ticks_per_beat = 0] no [tick()] returns: it raises, and
    [current_time] and [ticks_per_beat] are what they were.  When all of
    [tick()] before the clock is advanced goes through (the actions, the
    tracks and the output devices have had their turn), the exception is the
    [ZeroDivisionError] of [tick_duration] and the state is the one those
    steps have left.  The collaborators are taken not to write to the clock
    themselves. *)
Theorem tick_without_resolution E (s : Timeline) r s' :
  collaborators_preserve clock E ->
  ticks_per_beat s = 0 ->
  tick E s = (r, s') ->
  (exists e, r = Raise e) /\
  current_time s' = current_time s /\ ticks_per_beat s' = 0 /\
  (forall s5,
     (log_beat ;; process_note_offs E ;; flush_actions E ;; advance_tracks E ;;
      check_exhausted ;; advance_outputs E) s = (Ok tt, s5) ->
     r = Raise ZeroDivisionError /\ s' = s5).
Proof.
  intros HE H0 H.
  assert (Hzero : forall s5, ticks_per_beat s5 = 0 ->
                             advance_clock s5 = (Raise ZeroDivisionError, s5)).
  { intros s5 H5. unfold advance_clock, tick_duration, bind, gets. now rewrite H5. }
  assert (Hsplit : tick E s
                   = ((log_beat ;; process_note_offs E ;; flush_actions E ;;
                       advance_tracks E ;; check_exhausted ;; advance_outputs E) ;;
                      advance_clock) s).
  { unfold tick, bind.
    repeat match goal with
           | |- context [match ?m ?x with pair _ _ => _ end] =>
               destruct (m x) as [[[]|?] ?]; try reflexivity
           end. }
  assert (Hlast : forall s5,
             (log_beat ;; process_note_offs E ;; flush_actions E ;; advance_tracks E ;;
              check_exhausted ;; advance_outputs E) s = (Ok tt, s5) ->
             r = Raise ZeroDivisionError /\ s' = s5).
  { intros s5 Hpre. rewrite Hsplit in H. unfold bind at 1 in H. rewrite Hpre in H.
    pose proof (preserves_before_clock clock clock_own clock_sink E HE _ _ _ Hpre) as Hv.
    injection Hv as _ Htpb5.
    rewrite Hzero in H by congruence. now injection H as <- <-. }
  destruct (tick_cases clock clock_own clock_sink E HE s _ _ H)
    as [(e & -> & Hv)|(s5 & Hv & Hc)].
  - injection Hv as Hnow Htpb. refine (conj _ (conj Hnow (conj _ Hlast))).
    + now exists e.
    + congruence.
  - injection Hv as Hnow Htpb. rewrite Hzero in Hc by congruence.
    injection Hc as <- <-. refine (conj _ (conj Hnow (conj _ Hlast))).
    + now exists ZeroDivisionError.
    + congruence.
Qed.

Lemma tick_without_resolution_witness :
  exists s',
    tick track0_raises (set_tracks [1%nat] (set_ticks_per_beat 0 two_tracks_stopping))
    = (Raise ZeroDivisionError, s') /\
    current_time s' = (3 # 2)%Q /\ state (heap_tracks s' !!! 1%nat) = 1%nat.
Proof.
  destruct (tick track0_raises
              (set_tracks [1%nat] (set_ticks_per_beat 0 two_tracks_stopping)))
    as [r s'] eqn:Htick.
  destruct (tick_without_resolution track0_raises
              (set_tracks [1%nat] (set_ticks_per_beat 0 two_tracks_stopping)) r s'
              (track0_raises_preserves clock clock_own) eq_refl Htick)
    as (_ & Hnow & _ & Hpre).
  exists s'.
  destruct (Hpre (snd ((log_beat ;; process_note_offs track0_raises ;;
                        flush_actions track0_raises ;; advance_tracks track0_raises ;;
                        check_exhausted ;; advance_outputs track0_raises)
                         (set_tracks [1%nat]
                            (set_ticks_per_beat 0 two_tracks_stopping)))))
    as [-> ->]; [vm_compute; reflexivity|].
  repeat split.
Defined.
